(** * Kanji stroke-order drill sheets: the extract / sort / paginate pipeline

    A shallow embedding of the pure core of [src/App.tsx] (component [App]):
    [extractKanjiByLines], [getStrokeCountFromKanjiVG], [sortKanji],
    [maxKanjiPerRow] and [createDrillLayout], followed by the properties the
    specification states about them.

    Conventions.
    - A JavaScript string is its sequence of UTF-16 code units, a [list Z].
      The regular expression of the extractor is a single character class
      without the [u] flag, so every match is a string of exactly one code
      unit; a kanji is identified with that code unit.
    - JavaScript numbers are idealised: a cell size is an exact rational, a
      loop index or a row capacity is an integer or [Infinity] (what
      [190 / 0] evaluates to).  [NaN] and the negative zero are not
      represented.
    - [async] functions are modelled by their results; the network and the
      DOM parser are parameters of the development. *)

From stdpp Require Import base gmap strings.
From Stdlib Require Import ZArith QArith Qround List Bool Permutation Sorted Lia.
From Stdlib Require Import Ascii HexadecimalString HexadecimalN.
Import ListNotations.

Local Open Scope Z_scope.

(** ** The JavaScript built-ins the pipeline relies on *)

Module JS.

(** Numbers that index arrays: integers and [Infinity]. *)
Inductive num : Type :=
| Int (z : Z)
| Infinity.

(** [a + b]. *)
Definition add (a b : num) : num :=
  match a, b with
  | Int x, Int y => Int (x + y)
  | _, _ => Infinity
  end.

(** [a < b]. *)
Definition ltb (a b : num) : bool :=
  match a, b with
  | Int x, Int y => x <? y
  | Int _, Infinity => true
  | Infinity, _ => false
  end.

(** [a <= b]. *)
Definition leb (a b : num) : bool :=
  match a, b with
  | Int x, Int y => x <=? y
  | _, Infinity => true
  | Infinity, Int _ => false
  end.

(** [Math.floor(a / b)] for a rational [b]; dividing the positive [a] by
    zero gives [Infinity]. *)
Definition floor_div (a b : Q) : num :=
  if Qeq_bool b 0 then Infinity else Int (Qfloor (a / b)).

(** [String.prototype.split(sep)] for a separator of one code unit: the
    result always has at least one piece. *)
Fixpoint split (sep : Z) (text : list Z) : list (list Z) :=
  match text with
  | [] => [[]]
  | c :: rest =>
      if c =? sep then [] :: split sep rest
      else match split sep rest with
           | [] => [[c]]
           | piece :: pieces => (c :: piece) :: pieces
           end
  end.

(** [String.prototype.match(re)] for a global regular expression made of
    one character class [cls]: every code unit of the class, left to
    right, or [null] when there is none. *)
Definition match_g (cls : Z -> bool) (line : list Z) : option (list Z) :=
  match List.filter cls line with
  | [] => None
  | m => Some m
  end.

(** [Set.prototype.add]: a [Set] iterates in insertion order, so it is kept
    as the list of its elements in that order. *)
Definition Set_add (s : list Z) (x : Z) : list Z :=
  if existsb (Z.eqb x) s then s else s ++ [x].

(** [[...new Set(items)]]. *)
Definition Set_from (items : list Z) : list Z :=
  fold_left Set_add items [].

(** The relative index of [Array.prototype.slice]: negative arguments count
    from the end, everything is clamped to [0 .. len]. *)
Definition relative_index (len : Z) (x : num) : Z :=
  match x with
  | Infinity => len
  | Int z => if z <? 0 then Z.max (len + z) 0 else Z.min z len
  end.

(** [Array.prototype.slice(start, end)]. *)
Definition slice {A : Type} (l : list A) (start end_ : num) : list A :=
  let len := Z.of_nat (length l) in
  let k := relative_index len start in
  let final := relative_index len end_ in
  firstn (Z.to_nat (final - k)) (skipn (Z.to_nat k) l).

(** [Array.prototype.map((x, index) => f x index)]. *)
Fixpoint mapi_from {A B : Type} (f : A -> Z -> B) (index : Z) (l : list A)
  : list B :=
  match l with
  | [] => []
  | x :: rest => f x index :: mapi_from f (index + 1) rest
  end.

Definition mapi {A B : Type} (f : A -> Z -> B) (l : list A) : list B :=
  mapi_from f 0 l.

(** [Array.prototype.sort(compare)].  The language requires the sort to be
    stable, and for a consistent comparator the result is then unique;
    it is computed here by a stable insertion sort.  [compare a b > 0]
    places [a] after [b]. *)
Fixpoint sort_insert {A : Type} (compare : A -> A -> Z) (x : A) (l : list A)
  : list A :=
  match l with
  | [] => [x]
  | y :: rest =>
      if compare x y <=? 0 then x :: l else y :: sort_insert compare x rest
  end.

Definition sort {A : Type} (compare : A -> A -> Z) (l : list A) : list A :=
  fold_right (sort_insert compare) [] l.

End JS.

(** ** Character Extractor *)

(** [/[一-龯㐀-䶿]/]. *)
Definition kanjiRegex (c : Z) : bool :=
  ((0x4e00 <=? c) && (c <=? 0x9faf)) || ((0x3400 <=? c) && (c <=? 0x4dbf)).

(** The callback of [lines.map] in [extractKanjiByLines]. *)
Definition extractLine (removeDuplicates : bool) (line : list Z) : list Z :=
  match JS.match_g kanjiRegex line with
  | None => []
  | Some matches =>
      if removeDuplicates then JS.Set_from matches else matches
  end.

Definition extractKanjiByLines (removeDuplicates : bool) (text : list Z)
  : list (list Z) :=
  let lines := JS.split 10 text in
  List.filter (fun line => (0 <? Z.of_nat (length line)))
    (map (extractLine removeDuplicates) lines).

(** ** Illustration Provider and Orderer *)

(** What [await fetch(url)] followed by [response.text()] can do. *)
Inductive FetchOutcome : Type :=
| ResponseOk (body : string)
| ResponseNotOk
| FetchThrows.

(** The objects [{ kanji, strokeCount }] and [{ kanji, unicode }]. *)
Record KanjiWithStrokes : Type :=
  { ks_kanji : Z; strokeCount : Z }.

Record KanjiWithUnicode : Type :=
  { ku_kanji : Z; unicode : Z }.

Section Orderer.

(** The network, asked for the illustration of a kanji (the URL is made of
    the code unit of the kanji); it answers the same for the same kanji
    throughout one call of [sortKanji]. *)
Variable fetch : Z -> FetchOutcome.

(** [DOMParser] and [querySelectorAll('path[id^="kvg:"]').length] on the
    text of an illustration; [None] if they throw. *)
Variable strokePaths : string -> option Z.

Definition fetchKanjiSVG (kanji : Z) : option string :=
  match fetch kanji with
  | ResponseOk body => Some body
  | ResponseNotOk => None
  | FetchThrows => None
  end.

(** [if (svg)] holds for a non-empty string only; the [catch] sends what is
    thrown to the default at the end. *)
Definition getStrokeCountFromKanjiVG (kanji : Z) : Z :=
  match fetchKanjiSVG kanji with
  | Some svg =>
      if String.eqb svg "" then 10
      else match strokePaths svg with
           | Some n => n
           | None => 10
           end
  | None => 10
  end.

(** The callback of [lineKanji.map] in the stroke branch, reading the
    cache of the current render. *)
Definition withStrokes (strokeCache : gmap Z Z) (kanji : Z)
  : KanjiWithStrokes :=
  match strokeCache !! kanji with
  | Some n => {| ks_kanji := kanji; strokeCount := n |}
  | None =>
      {| ks_kanji := kanji; strokeCount := getStrokeCountFromKanjiVG kanji |}
  end.

(** [kanji.charCodeAt(0)] of a one-unit string. *)
Definition charCodeAt0 (kanji : Z) : Z := kanji.

(** The callback of [kanjiList.map] in [sortKanji]. *)
Definition sortLine (sortOrder : string) (strokeCache : gmap Z Z)
    (lineKanji : list Z) : list Z :=
  if String.prefix "stroke-" sortOrder then
    let kanjiWithStrokes := map (withStrokes strokeCache) lineKanji in
    let sorted :=
      JS.sort (fun a b =>
                 if String.eqb sortOrder "stroke-asc"
                 then strokeCount a - strokeCount b
                 else strokeCount b - strokeCount a)
              kanjiWithStrokes in
    map ks_kanji sorted
  else if String.prefix "unicode-" sortOrder then
    let kanjiWithUnicode :=
      map (fun kanji => {| ku_kanji := kanji; unicode := charCodeAt0 kanji |})
          lineKanji in
    let sorted :=
      JS.sort (fun a b =>
                 if String.eqb sortOrder "unicode-asc"
                 then unicode a - unicode b
                 else unicode b - unicode a)
              kanjiWithUnicode in
    map ku_kanji sorted
  else lineKanji.

(** The writes [setStrokeCache(prev => new Map(prev.set(kanji, n)))] issued
    for a line: one for every kanji the cache of the current render
    misses. *)
Definition cacheLine (strokeCache : gmap Z Z) (prev : gmap Z Z)
    (lineKanji : list Z) : gmap Z Z :=
  fold_left
    (fun prev kanji =>
       match strokeCache !! kanji with
       | Some _ => prev
       | None => <[kanji := getStrokeCountFromKanjiVG kanji]> prev
       end)
    lineKanji prev.

(** [sortKanji], returning the sorted lines and the cache after the
    writes. *)
Definition sortKanji (sortOrder : string) (strokeCache : gmap Z Z)
    (kanjiList : list (list Z)) : list (list Z) * gmap Z Z :=
  if String.eqb sortOrder "none" then (kanjiList, strokeCache)
  else
    (map (sortLine sortOrder strokeCache) kanjiList,
     if String.prefix "stroke-" sortOrder
     then fold_left (cacheLine strokeCache) kanjiList strokeCache
     else strokeCache).

End Orderer.

(** ** Page Layout Engine *)

(** [Math.floor(190 / kanjiSizeMm)]. *)
Definition maxKanjiPerRow (kanjiSizeMm : Q) : JS.num :=
  JS.floor_div 190 kanjiSizeMm.

(** React keys, template strings in the source: [kanji-n-numbered] or
    [kanji-n-plain] for a cell, [line-lineIndex-row-i-pair] for a row pair,
    [line-break-lineIndex] for a marker. *)
Inductive Key : Type :=
| KanjiKey (kanji : Z) (n : Z) (numbered : bool)
| PairKey (lineIndex : Z) (i : JS.num)
| LineBreakKey (lineIndex : Z).

(** The elements [createDrillLayout] builds. *)
#[warnings="-register-all"]
Inductive Element : Type :=
| KanjiDisplay (key : Key) (kanji : Z) (sizeMm : Q) (showNumbers : bool)
| Div (key : option Key) (className : string) (children : list Element).

(** The variables [rows] and [globalIndex] of [createDrillLayout]. *)
Record Layout : Type :=
  { rows : list Element; globalIndex : Z }.

Section Layout.

Variable maxPerRow : JS.num.
Variable kanjiSizeMm : Q.

(** The two rows built from a chunk, wrapped in their [kanji-pair]. *)
Definition kanjiPair (lineIndex : Z) (i : JS.num) (globalIndex : Z)
    (kanjiInRow : list Z) : Element :=
  let numberedRow :=
    JS.mapi (fun kanji index =>
               KanjiDisplay (KanjiKey kanji (globalIndex + index) true)
                            kanji kanjiSizeMm true)
            kanjiInRow in
  let plainRow :=
    JS.mapi (fun kanji index =>
               KanjiDisplay (KanjiKey kanji (globalIndex + index) false)
                            kanji kanjiSizeMm false)
            kanjiInRow in
  Div (Some (PairKey lineIndex i)) "kanji-pair"
      [Div None "kanji-row" numberedRow; Div None "kanji-row" plainRow].

(** The test [i < lineKanji.length] of the [for] loop. *)
Definition loopTest (lineKanji : list Z) (i : JS.num) : bool :=
  JS.ltb i (JS.Int (Z.of_nat (length lineKanji))).

(** One run of the body of the [for] loop followed by its update
    [i += maxKanjiPerRow]. *)
Definition loopBody (lineIndex : Z) (lineKanji : list Z) (i : JS.num)
    (st : Layout) : JS.num * Layout :=
  let kanjiInRow := JS.slice lineKanji i (JS.add i maxPerRow) in
  (JS.add i maxPerRow,
   {| rows := rows st ++ [kanjiPair lineIndex i (globalIndex st) kanjiInRow];
      globalIndex := globalIndex st + Z.of_nat (length kanjiInRow) |}).

(** The [for] loop, run for at most [fuel] tests of its condition; [None]
    when the fuel does not suffice. *)
Fixpoint forLoop (fuel : nat) (lineIndex : Z) (lineKanji : list Z)
    (i : JS.num) (st : Layout) : option Layout :=
  match fuel with
  | O => None
  | S fuel' =>
      if loopTest lineKanji i then
        let '(i', st') := loopBody lineIndex lineKanji i st in
        forLoop fuel' lineIndex lineKanji i' st'
      else Some st
  end.

(** [kanjiLines.forEach((lineKanji, lineIndex) => ...)], [len] being
    [kanjiLines.length]. *)
Fixpoint forEachLine (fuel : nat) (len : Z) (lineIndex : Z)
    (lines : list (list Z)) (st : Layout) : option Layout :=
  match lines with
  | [] => Some st
  | lineKanji :: rest =>
      match forLoop fuel lineIndex lineKanji (JS.Int 0) st with
      | None => None
      | Some st1 =>
          let st2 :=
            if lineIndex <? len - 1 then
              {| rows := rows st1 ++
                         [Div (Some (LineBreakKey lineIndex)) "line-break" []];
                 globalIndex := globalIndex st1 |}
            else st1 in
          forEachLine fuel len (lineIndex + 1) rest st2
      end
  end.

(** The body of [createDrillLayout] for the row capacity [maxPerRow]. *)
Definition drillLayout (fuel : nat) (kanjiLines : list (list Z))
  : option (list Element) :=
  match forEachLine fuel (Z.of_nat (length kanjiLines)) 0 kanjiLines
          {| rows := []; globalIndex := 0 |} with
  | Some st => Some (rows st)
  | None => None
  end.

End Layout.

(** [createDrillLayout] inside a render with cell size [kanjiSizeMm]. *)
Definition createDrillLayout (fuel : nat) (kanjiSizeMm : Q)
    (kanjiLines : list (list Z)) : option (list Element) :=
  drillLayout (maxKanjiPerRow kanjiSizeMm) kanjiSizeMm fuel kanjiLines.

(** ** The component [App]: its state, its handlers and its render *)

Module App.

(** The [useState] cells of [App]. *)
Record State : Type :=
  { inputText : list Z;
    kanjiSizeMm : Q;
    removeDuplicates : bool;
    sortOrder : string;
    strokeCache : gmap Z Z;
    sortedKanjiLines : list (list Z) }.

(** The initial state when the local storage holds nothing. *)
Definition initial : State :=
  {| inputText := [];
     kanjiSizeMm := 20;
     removeDuplicates := true;
     sortOrder := "none";
     strokeCache := ∅;
     sortedKanjiLines := [] |}.

(** [onChange] of the text area: [setInputText(e.target.value)]. *)
Definition onInputChange (value : list Z) (s : State) : State :=
  {| inputText := value;
     kanjiSizeMm := kanjiSizeMm s;
     removeDuplicates := removeDuplicates s;
     sortOrder := sortOrder s;
     strokeCache := strokeCache s;
     sortedKanjiLines := sortedKanjiLines s |}.

(** [onChange] of the size field:
    [setKanjiSizeMm(Number(e.target.value))], [value] being the number the
    field holds.  The attributes [min="10"] and [max="100"] of the field
    do not alter the value that reaches the handler. *)
Definition onSizeChange (value : Q) (s : State) : State :=
  {| inputText := inputText s;
     kanjiSizeMm := value;
     removeDuplicates := removeDuplicates s;
     sortOrder := sortOrder s;
     strokeCache := strokeCache s;
     sortedKanjiLines := sortedKanjiLines s |}.

(** The bounds the size field declares. *)
Definition sizeMin : Q := 10.
Definition sizeMax : Q := 100.

(** [onChange] of the check box: [setRemoveDuplicates(e.target.checked)]. *)
Definition onDuplicatesChange (checked : bool) (s : State) : State :=
  {| inputText := inputText s;
     kanjiSizeMm := kanjiSizeMm s;
     removeDuplicates := checked;
     sortOrder := sortOrder s;
     strokeCache := strokeCache s;
     sortedKanjiLines := sortedKanjiLines s |}.

(** [onChange] of the select: [setSortOrder(e.target.value)]. *)
Definition onSortChange (value : string) (s : State) : State :=
  {| inputText := inputText s;
     kanjiSizeMm := kanjiSizeMm s;
     removeDuplicates := removeDuplicates s;
     sortOrder := value;
     strokeCache := strokeCache s;
     sortedKanjiLines := sortedKanjiLines s |}.

Section Effects.

Variable fetch : Z -> FetchOutcome.
Variable strokePaths : string -> option Z.

(** The effect [processKanji]: extract, sort, store the sorted lines;
    the cache writes of [sortKanji] land in [strokeCache]. *)
Definition processKanji (s : State) : State :=
  let rawKanjiLines :=
    extractKanjiByLines (removeDuplicates s) (inputText s) in
  let '(sorted, cache) :=
    sortKanji fetch strokePaths (sortOrder s) (strokeCache s)
              rawKanjiLines in
  {| inputText := inputText s;
     kanjiSizeMm := kanjiSizeMm s;
     removeDuplicates := removeDuplicates s;
     sortOrder := sortOrder s;
     strokeCache := cache;
     sortedKanjiLines := sorted |}.

End Effects.

(** The children of the drill container in [App]'s render:
    [kanjiLines.length > 0 && createDrillLayout()]. *)
Definition render (fuel : nat) (s : State) : option (list Element) :=
  let kanjiLines := sortedKanjiLines s in
  if 0 <? Z.of_nat (length kanjiLines)
  then createDrillLayout fuel (kanjiSizeMm s) kanjiLines
  else Some [].

End App.

(** ** The rest of the source: the earlier extractor, the illustration
    request and the cell component *)

(** [extractKanji] of the earlier, single-line revision of [App]: every
    kanji of the text, or the empty array when [match] returns [null]. *)
Definition extractKanji (text : list Z) : list Z :=
  match JS.match_g kanjiRegex text with
  | Some matches => matches
  | None => []
  end.

(** [n.toString(16)] for a non-negative integer: its digits in base 16,
    lower case, no leading zero. *)
Definition toString16 (n : Z) : string :=
  HexadecimalString.NilZero.string_of_uint (N.to_hex_uint (Z.to_N n)).

(** [s.padStart(targetLength, fill)] for a filler of one character: [fill]
    is put in front until the length is reached. *)
Fixpoint padding (n : nat) (fill : ascii) (s : string) : string :=
  match n with
  | O => s
  | S n' => String fill (padding n' fill s)
  end.

Definition padStart (targetLength : nat) (fill : ascii) (s : string) : string :=
  padding (targetLength - String.length s) fill s.

(** [getKanjiCode]: the name of the illustration file of a kanji. *)
Definition getKanjiCode (kanji : Z) : string :=
  let code := padStart 5 "0" (toString16 (charCodeAt0 kanji)) in
  code.

(** The address [fetchKanjiSVG] asks for. *)
Definition kanjiUrl (kanji : Z) : string :=
  "https://cdn.jsdelivr.net/gh/KanjiVG/kanjivg/kanji/" ++ getKanjiCode kanji
  ++ ".svg".

(** The provider seen by kanji, for a network that answers by address. *)
Definition fetchByUrl (network : string -> FetchOutcome) (kanji : Z)
  : FetchOutcome :=
  network (kanjiUrl kanji).

(** *** The component [KanjiDisplay] *)

Module Display.

(** Its properties; [kanji] is any string, [App] passes a single code
    unit. *)
Record Props : Type :=
  { kanji : list Z; sizeMm : Q; showNumbers : bool }.

(** Its [useState] cells. *)
Record State : Type :=
  { svgContent : option string; loading : bool }.

Definition initial : State :=
  {| svgContent := None; loading := false |}.

(** What stands inside the container. *)
Inductive Part : Type :=
| GridLines
| LoadingText
| KanjiSvg (html : string)
| ErrorText.

(** A string or [null] taken as a condition. *)
Definition truthy (s : option string) : bool :=
  match s with
  | Some s => negb (String.eqb s "")
  | None => false
  end.

Section Effects.

Variable fetch : Z -> FetchOutcome.

(** [processKanjiSVG]: the illustration restyled through the DOM. *)
Variable processKanjiSVG : string -> bool -> string.

(** [loadKanji] up to its [await]: [setLoading(true)]. *)
Definition loadStart (st : State) : State :=
  {| svgContent := svgContent st; loading := true |}.

(** [loadKanji] from its [await] on, for the first code unit [c] of the
    kanji. *)
Definition loadEnd (c : Z) (showNumbers : bool) (st : State) : State :=
  match fetchKanjiSVG fetch c with
  | Some svg =>
      if String.eqb svg ""
      then {| svgContent := None; loading := false |}
      else {| svgContent := Some (processKanjiSVG svg showNumbers);
              loading := false |}
  | None => {| svgContent := None; loading := false |}
  end.

(** The effect, which loads only [if (kanji)]: its synchronous part and the
    part that runs when the request has settled. *)
Definition effectStart (p : Props) (st : State) : State :=
  match kanji p with
  | [] => st
  | _ :: _ => loadStart st
  end.

Definition effectEnd (p : Props) (st : State) : State :=
  match kanji p with
  | [] => st
  | c :: _ => loadEnd c (showNumbers p) st
  end.

End Effects.

(** The render: the side of the square container and what it holds. *)
Definition render (p : Props) (st : State) : Q * list Part :=
  (sizeMm p,
   [GridLines]
     ++ (if loading st then [LoadingText] else [])
     ++ (match svgContent st with
         | Some html => if String.eqb html "" then [] else [KanjiSvg html]
         | None => []
         end)
     ++ (if negb (loading st) && negb (truthy (svgContent st))
            && (0 <? Z.of_nat (length (kanji p)))
         then [ErrorText] else [])).

(** The properties [createDrillLayout] gives a cell. *)
Definition propsOf (e : Element) : option Props :=
  match e with
  | KanjiDisplay _ k size shown =>
      Some {| kanji := [k]; sizeMm := size; showNumbers := shown |}
  | Div _ _ _ => None
  end.

End Display.

(** *** The cell size at start-up *)

(** The code units [parseInt] skips in front of a numeral: white space and
    line terminators. *)
Definition isWhiteSpace (c : Z) : bool :=
  existsb (Z.eqb c)
    [9; 10; 11; 12; 13; 32; 160; 5760; 8192; 8193; 8194; 8195; 8196; 8197;
     8198; 8199; 8200; 8201; 8202; 8232; 8233; 8239; 8287; 12288; 65279].

Definition isDigit (c : Z) : bool := (48 <=? c) && (c <=? 57).

(** The value of the longest run of decimal digits at the head of [s],
    [acc] being the value of the digits already read and [seen] telling
    whether there was one. *)
Fixpoint parseDigits (s : list Z) (acc : Z) (seen : bool) : option Z :=
  match s with
  | c :: rest =>
      if isDigit c then parseDigits rest (10 * acc + (c - 48)) true
      else if seen then Some acc else None
  | [] => if seen then Some acc else None
  end.

Fixpoint skipWhiteSpace (s : list Z) : list Z :=
  match s with
  | c :: rest => if isWhiteSpace c then skipWhiteSpace rest else s
  | [] => []
  end.

(** [parseInt(s, 10)]; [None] is [NaN], and the zero read from a numeral
    of zeros behind a minus sign stands for the negative zero. *)
Definition parseInt10 (s : list Z) : option Z :=
  match skipWhiteSpace s with
  | c :: rest =>
      if c =? 45 then option_map Z.opp (parseDigits rest 0 false)
      else if c =? 43 then parseDigits rest 0 false
      else parseDigits (c :: rest) 0 false
  | [] => None
  end.

(** The initial [kanjiSizeMm]: [saved ? parseInt(saved, 10) : 20], [saved]
    being the stored entry or [null]. *)
Definition initialSize (saved : option (list Z)) : option Q :=
  match saved with
  | None => Some 20%Q
  | Some [] => Some 20%Q
  | Some s => option_map inject_Z (parseInt10 s)
  end.

(** The value of a string of digits. *)
Definition digitsValue (digits : list Z) : Z :=
  fold_left (fun acc d => 10 * acc + d) digits 0.

(** ** Definitions used to state the properties *)

(** Membership in the two CJK blocks the specification names. *)
Definition inCJK (c : Z) : Prop :=
  0x4E00 <= c <= 0x9FAF \/ 0x3400 <= c <= 0x4DBF.

(** Position of the first occurrence of [x] in [l] ([length l] if none). *)
Fixpoint firstIndex (x : Z) (l : list Z) : nat :=
  match l with
  | [] => O
  | y :: rest => if x =? y then O else S (firstIndex x rest)
  end.

(** The input lines that contain at least one kanji. *)
Definition kanjiBearing (text : list Z) : list (list Z) :=
  List.filter (existsb kanjiRegex) (JS.split 10 text).

(** The stroke count the Orderer works with for a kanji. *)
Definition assignedCount (fetch : Z -> FetchOutcome)
    (strokePaths : string -> option Z) (strokeCache : gmap Z Z) (kanji : Z) : Z :=
  strokeCount (withStrokes fetch strokePaths strokeCache kanji).

(** [sorted] is the stable sort of [line] by [key] along [ord]: the same
    elements, keys in order, elements of equal key in their order in
    [line]. *)
Definition StableSortedBy (ord : Z -> Z -> Prop) (key : Z -> Z)
    (line sorted : list Z) : Prop :=
  Permutation line sorted
  /\ StronglySorted (fun a b => ord (key a) (key b)) sorted
  /\ forall k, List.filter (fun a => key a =? k) sorted =
               List.filter (fun a => key a =? k) line.

(** [row] is a [kanji-row] showing the characters of [chunk], in order, in
    cells of size [sizeMm], stroke numbers shown or hidden as [showNumbers]
    says. *)
Definition ShowsRow (sizeMm : Q) (showNumbers : bool) (chunk : list Z)
    (row : Element) : Prop :=
  exists cells,
    row = Div None "kanji-row" cells
    /\ Forall2 (fun kanji cell =>
                  exists key, cell = KanjiDisplay key kanji sizeMm showNumbers)
               chunk cells.

(** [e] is what is emitted for [chunk]: exactly two rows, the annotated one
    and then the plain one, with the same characters. *)
Definition IsRowPair (sizeMm : Q) (chunk : list Z) (e : Element) : Prop :=
  exists key annotated plain,
    e = Div (Some key) "kanji-pair" [annotated; plain]
    /\ ShowsRow sizeMm true chunk annotated
    /\ ShowsRow sizeMm false chunk plain.

(** [e] is a line-break marker. *)
Definition IsLineBreak (e : Element) : Prop :=
  exists key, e = Div (Some key) "line-break" [].

(** The class test a style sheet makes: [e] is an element of class
    [className]. *)
Definition hasClass (className : string) (e : Element) : bool :=
  match e with
  | Div _ c _ => String.eqb c className
  | KanjiDisplay _ _ _ _ => false
  end.

(** [out] is the layout of a document whose lines are cut into the chunks
    [chunkss]: for each line the row pairs of its chunks, and one line-break
    marker after the row pairs of every line but the last. *)
Fixpoint LaidOut (sizeMm : Q) (chunkss : list (list (list Z)))
    (out : list Element) : Prop :=
  match chunkss with
  | [] => out = []
  | chunks :: rest =>
      exists pairs,
        Forall2 (IsRowPair sizeMm) chunks pairs
        /\ match rest with
           | [] => out = pairs
           | _ :: _ =>
               exists br tail,
                 IsLineBreak br /\ out = pairs ++ br :: tail
                 /\ LaidOut sizeMm rest tail
           end
  end.

(** [chunks] cuts [line] into consecutive non-empty pieces of at most
    [maxPerRow] characters, every piece but the last being full. *)
Definition SplitsInto (maxPerRow : JS.num) (line : list Z)
    (chunks : list (list Z)) : Prop :=
  concat chunks = line
  /\ Forall (fun chunk =>
               chunk <> []
               /\ JS.leb (JS.Int (Z.of_nat (length chunk))) maxPerRow = true)
            chunks
  /\ Forall (fun chunk => JS.Int (Z.of_nat (length chunk)) = maxPerRow)
            (removelast chunks).

(** What of [lineKanji] lies at and after index [i]. *)
Definition remaining (lineKanji : list Z) (i : JS.num) : list Z :=
  match i with
  | JS.Int z => skipn (Z.to_nat z) lineKanji
  | JS.Infinity => []
  end.

Definition nonneg (i : JS.num) : Prop :=
  match i with
  | JS.Int z => 0 <= z
  | JS.Infinity => True
  end.

(** The scenario of the specification: the text 漢字, a line feed, 漢字 typed
    into a fresh [App] (deduplication on, cell size 20, no sorting). *)
Definition scenario (fetch : Z -> FetchOutcome) (strokePaths : string -> option Z)
  : App.State :=
  App.processKanji fetch strokePaths
    (App.onInputChange [0x6f22; 0x5b57; 10; 0x6f22; 0x5b57] App.initial).

(** A fresh [App] in which 漢 is typed and the size field is set to 200. *)
Definition oversized (fetch : Z -> FetchOutcome) (strokePaths : string -> option Z)
  : App.State :=
  App.processKanji fetch strokePaths
    (App.onSizeChange 200 (App.onInputChange [0x6f22] App.initial)).

(** What an element holds, and its key. *)
Definition children (e : Element) : list Element :=
  match e with
  | Div _ _ c => c
  | KanjiDisplay _ _ _ _ => []
  end.

Definition keyOf (e : Element) : option Key :=
  match e with
  | Div key _ _ => key
  | KanjiDisplay key _ _ _ => Some key
  end.

(** The rows of a sheet (the children of its top-level elements) and its
    cells (the children of the rows), in the order of the page. *)
Definition rowsOf (out : list Element) : list Element :=
  flat_map children out.

Definition cellsOf (out : list Element) : list Element :=
  flat_map children (rowsOf out).

(** The cells that show stroke numbers, and those that hide them. *)
Definition isAnnotated (e : Element) : bool :=
  match e with
  | KanjiDisplay _ _ _ showNumbers => showNumbers
  | Div _ _ _ => false
  end.

Definition isPlain (e : Element) : bool :=
  match e with
  | KanjiDisplay _ _ _ showNumbers => negb showNumbers
  | Div _ _ _ => false
  end.

(** The row pairs the loop appends for the chunks of a line, from index [i]
    and character count [g] on. *)
Fixpoint pairsOf (maxPerRow : JS.num) (sizeMm : Q) (lineIndex : Z)
    (i : JS.num) (g : Z) (chunks : list (list Z)) : list Element :=
  match chunks with
  | [] => []
  | chunk :: rest =>
      kanjiPair sizeMm lineIndex i g chunk
        :: pairsOf maxPerRow sizeMm lineIndex (JS.add i maxPerRow)
                   (g + Z.of_nat (length chunk)) rest
  end.

(** The sheet of a document whose lines are cut into [chunkss], from line
    [lineIndex] of [len] and character count [g] on. *)
Fixpoint sheetOf (maxPerRow : JS.num) (sizeMm : Q) (len lineIndex g : Z)
    (chunkss : list (list (list Z))) : list Element :=
  match chunkss with
  | [] => []
  | chunks :: rest =>
      pairsOf maxPerRow sizeMm lineIndex (JS.Int 0) g chunks
        ++ (if lineIndex <? len - 1
            then [Div (Some (LineBreakKey lineIndex)) "line-break" []]
            else [])
        ++ sheetOf maxPerRow sizeMm len (lineIndex + 1)
                   (g + Z.of_nat (length (concat chunks))) rest
  end.

(** The cell of a character: its key carries the character, its number [n]
    and whether stroke numbers are shown. *)
Definition cell (sizeMm : Q) (showNumbers : bool) (kanji n : Z) : Element :=
  KanjiDisplay (KanjiKey kanji n showNumbers) kanji sizeMm showNumbers.

(** The cells of the row pairs of consecutive chunks, the first character
    having number [g]. *)
Fixpoint chunkCells (sizeMm : Q) (g : Z) (chunks : list (list Z))
  : list Element :=
  match chunks with
  | [] => []
  | chunk :: rest =>
      JS.mapi_from (cell sizeMm true) g chunk
        ++ JS.mapi_from (cell sizeMm false) g chunk
        ++ chunkCells sizeMm (g + Z.of_nat (length chunk)) rest
  end.

(** The number in the key of a cell and the line in the key of a row pair
    or of a marker. *)
Definition keyNumber (key : Key) : Z :=
  match key with
  | KanjiKey _ n _ => n
  | PairKey _ _ => 0
  | LineBreakKey _ => 0
  end.

Definition keyLine (key : Key) : Z :=
  match key with
  | KanjiKey _ _ _ => 0
  | PairKey lineIndex _ => lineIndex
  | LineBreakKey lineIndex => lineIndex
  end.

(** The elements of [l] all have keys, no key occurs twice, and the
    measure [m] of every key lies in [lo, hi). *)
Definition KeysWithin (m : Key -> Z) (lo hi : Z) (l : list Element) : Prop :=
  NoDup (map keyOf l)
  /\ Forall (fun e => exists key, keyOf e = Some key /\ lo <= m key < hi) l.

(** The number a string of hexadecimal digits stands for. *)
Definition hexValue (s : string) : option Z :=
  option_map (fun digits => Z.of_N (N.of_hex_uint digits))
             (HexadecimalString.NilEmpty.uint_of_string s).

(** The integers [start], [start + 1], ... ([n] of them). *)
Fixpoint zrange (n : nat) (start : Z) : list Z :=
  match n with
  | O => []
  | S n' => start :: zrange n' (start + 1)
  end.

(** The number of rows of [maxPerRow] cells that [n] characters take. *)
Definition rowsNeeded (maxPerRow n : Z) : Z := (n + maxPerRow - 1) / maxPerRow.

(** * Properties *)

(** ** Character Extractor *)

Lemma kanjiRegex_spec (c : Z) : kanjiRegex c = true <-> inCJK c.
Proof.
  unfold kanjiRegex, inCJK.
  rewrite orb_true_iff, !andb_true_iff, !Z.leb_le. tauto.
Qed.

Lemma match_g_filter (cls : Z -> bool) (line : list Z) :
  match JS.match_g cls line with
  | None => List.filter cls line = []
  | Some m => m = List.filter cls line /\ m <> []
  end.
Proof.
  unfold JS.match_g. destruct (List.filter cls line); [reflexivity|].
  split; [reflexivity | discriminate].
Qed.

Lemma filter_nil_existsb {A : Type} (p : A -> bool) (l : list A) :
  List.filter p l = [] <-> existsb p l = false.
Proof.
  induction l as [|x l IH]; simpl; [tauto|].
  destruct (p x); simpl; [split; discriminate | exact IH].
Qed.

(** *** [Set]: insertion order, one copy of each element *)

Lemma existsb_eqb_In (x : Z) (s : list Z) :
  existsb (Z.eqb x) s = true <-> In x s.
Proof.
  rewrite existsb_exists. split.
  - intros (y & Hy & E). apply Z.eqb_eq in E. now subst.
  - intros H. exists x. split; [exact H | apply Z.eqb_refl].
Qed.

Lemma Set_add_In (s : list Z) (x y : Z) :
  In y (JS.Set_add s x) <-> In y s \/ y = x.
Proof.
  unfold JS.Set_add. destruct (existsb (Z.eqb x) s) eqn:E.
  - apply existsb_eqb_In in E. split; [tauto|]. intros [H| ->]; assumption.
  - rewrite in_app_iff. simpl. intuition congruence.
Qed.

Lemma Set_add_NoDup (s : list Z) (x : Z) :
  NoDup s -> NoDup (JS.Set_add s x).
Proof.
  intros H. unfold JS.Set_add. destruct (existsb (Z.eqb x) s) eqn:E; [exact H|].
  assert (~ In x s) as Hx.
  { intros Hin. apply existsb_eqb_In in Hin. congruence. }
  clear E. induction H as [|y s Hy Hs IH]; simpl.
  - constructor; [intros [] | constructor].
  - constructor.
    + rewrite in_app_iff. simpl. simpl in Hx. intuition congruence.
    + apply IH. simpl in Hx. tauto.
Qed.

Lemma fold_Set_add_In (items acc : list Z) (y : Z) :
  In y (fold_left JS.Set_add items acc) <-> In y acc \/ In y items.
Proof.
  revert acc. induction items as [|x items IH]; intros acc; simpl.
  - tauto.
  - rewrite IH, Set_add_In. intuition congruence.
Qed.

Lemma fold_Set_add_NoDup (items acc : list Z) :
  NoDup acc -> NoDup (fold_left JS.Set_add items acc).
Proof.
  revert acc. induction items as [|x items IH]; intros acc H; simpl.
  - exact H.
  - apply IH, Set_add_NoDup, H.
Qed.

Lemma Set_from_In (items : list Z) (y : Z) :
  In y (JS.Set_from items) <-> In y items.
Proof. unfold JS.Set_from. rewrite fold_Set_add_In. simpl. tauto. Qed.

Lemma Set_from_NoDup (items : list Z) : NoDup (JS.Set_from items).
Proof. apply fold_Set_add_NoDup. constructor. Qed.

Lemma Set_from_nil (items : list Z) : JS.Set_from items = [] <-> items = [].
Proof.
  split.
  - intros H. destruct items as [|x items]; [reflexivity|].
    assert (In x (JS.Set_from (x :: items))) as Hx
        by (apply Set_from_In; now left).
    rewrite H in Hx. destruct Hx.
  - intros ->. reflexivity.
Qed.

Lemma filter_andb {A : Type} (p q : A -> bool) (l : list A) :
  List.filter p (List.filter q l) = List.filter (fun y => p y && q y) l.
Proof.
  induction l as [|x l IH]; simpl; [reflexivity|].
  destruct (q x); simpl.
  - rewrite andb_true_r. destruct (p x); now rewrite IH.
  - now rewrite andb_false_r.
Qed.

(** Adding the items to a set that already holds [acc] appends, in their
    own insertion order, the items [acc] does not hold. *)
Lemma fold_Set_add_acc (items acc : list Z) :
  fold_left JS.Set_add items acc =
  acc ++ List.filter (fun y => negb (existsb (Z.eqb y) acc))
                     (JS.Set_from items).
Proof.
  revert acc. induction items as [|x items IH]; intros acc.
  - simpl. now rewrite app_nil_r.
  - unfold JS.Set_from. simpl fold_left.
    rewrite (IH (JS.Set_add [] x)). unfold JS.Set_add at 2. simpl existsb.
    cbv iota. simpl app at 2. simpl List.filter at 1.
    rewrite filter_andb.
    unfold JS.Set_add. destruct (existsb (Z.eqb x) acc) eqn:E; simpl.
    + rewrite IH. f_equal. apply filter_ext. intros y.
      destruct (existsb (Z.eqb y) acc) eqn:Ey; simpl; [reflexivity|].
      destruct (Z.eqb_spec y x) as [->|_]; [congruence | reflexivity].
    + rewrite IH, <- app_assoc. simpl. do 2 f_equal. apply filter_ext.
      intros y. rewrite existsb_app. simpl. rewrite orb_false_r.
      now rewrite negb_orb.
Qed.

(** The first item comes first; its repeats are gone from what follows. *)
Lemma Set_from_cons (x : Z) (items : list Z) :
  JS.Set_from (x :: items) =
  x :: List.filter (fun y => negb (y =? x)) (JS.Set_from items).
Proof.
  unfold JS.Set_from at 1. simpl fold_left. rewrite fold_Set_add_acc.
  unfold JS.Set_add. simpl. f_equal. apply filter_ext. intros y.
  now rewrite orb_false_r.
Qed.

Lemma firstIndex_lt_In (x : Z) (l : list Z) :
  (firstIndex x l < length l)%nat <-> In x l.
Proof.
  induction l as [|y l IH]; simpl.
  - split; [lia | tauto].
  - destruct (Z.eqb_spec x y) as [->|Hne].
    + split; [now left | lia].
    + rewrite <- IH. split; [intros H; right; lia|].
      intros [E|H]; [congruence | lia].
Qed.

Lemma firstIndex_le (x : Z) (l : list Z) : (firstIndex x l <= length l)%nat.
Proof.
  induction l as [|y l IH]; simpl; [lia|]. destruct (x =? y); lia.
Qed.

(** Filtering keeps the relative order of the first occurrences of the
    elements it keeps. *)
Lemma firstIndex_filter (p : Z -> bool) (a b : Z) (l : list Z) :
  p a = true -> p b = true ->
  ((firstIndex a (List.filter p l) < firstIndex b (List.filter p l))%nat <->
   (firstIndex a l < firstIndex b l)%nat).
Proof.
  intros Ha Hb. induction l as [|y l IH]; simpl; [reflexivity|].
  destruct (Z.eqb_spec a y) as [->|Hay].
  - rewrite Ha. simpl. rewrite Z.eqb_refl.
    destruct (Z.eqb_spec b y); lia.
  - destruct (Z.eqb_spec b y) as [->|Hby].
    + rewrite Hb. simpl. rewrite Z.eqb_refl.
      destruct (Z.eqb_spec a y); [congruence | lia].
    + destruct (p y); simpl.
      * destruct (Z.eqb_spec a y); [congruence|].
        destruct (Z.eqb_spec b y); [congruence|]. lia.
      * lia.
Qed.

(** First-seen order: [a] precedes [b] in the set exactly when the first
    [a] precedes the first [b] among the items. *)
Lemma Set_from_order (items : list Z) (a b : Z) :
  In a items -> In b items ->
  ((firstIndex a (JS.Set_from items) < firstIndex b (JS.Set_from items))%nat <->
   (firstIndex a items < firstIndex b items)%nat).
Proof.
  revert a b. induction items as [|x items IH]; intros a b Ha Hb.
  - destruct Ha.
  - rewrite Set_from_cons. simpl.
    destruct (Z.eqb_spec a x) as [->|Hax]; destruct (Z.eqb_spec b x) as [->|Hbx];
      try lia.
    assert (In a items) as Ha' by (destruct Ha; [congruence | assumption]).
    assert (In b items) as Hb' by (destruct Hb; [congruence | assumption]).
    rewrite <- !Nat.succ_lt_mono.
    rewrite firstIndex_filter.
    + now apply IH.
    + now apply negb_true_iff, Z.eqb_neq.
    + now apply negb_true_iff, Z.eqb_neq.
Qed.

(** *** Lines of the document *)

Lemma extractLine_filter (removeDuplicates : bool) (line : list Z) :
  extractLine removeDuplicates line =
  if removeDuplicates then JS.Set_from (List.filter kanjiRegex line)
  else List.filter kanjiRegex line.
Proof.
  unfold extractLine. pose proof (match_g_filter kanjiRegex line) as H.
  destruct (JS.match_g kanjiRegex line) as [m|].
  - destruct H as [-> _]. reflexivity.
  - rewrite H. now destruct removeDuplicates.
Qed.

Lemma extractLine_nil (removeDuplicates : bool) (line : list Z) :
  extractLine removeDuplicates line = [] <-> existsb kanjiRegex line = false.
Proof.
  rewrite extractLine_filter, <- filter_nil_existsb.
  destruct removeDuplicates; [apply Set_from_nil | reflexivity].
Qed.

Lemma filter_map_swap {A B : Type} (p : B -> bool) (f : A -> B) (l : list A) :
  List.filter p (map f l) = map f (List.filter (fun x => p (f x)) l).
Proof.
  induction l as [|x l IH]; simpl; [reflexivity|].
  destruct (p (f x)); simpl; now rewrite IH.
Qed.

(** The document holds one line for every kanji-bearing input line. *)
Lemma extractKanjiByLines_map (removeDuplicates : bool) (text : list Z) :
  extractKanjiByLines removeDuplicates text =
  map (extractLine removeDuplicates) (kanjiBearing text).
Proof.
  unfold extractKanjiByLines, kanjiBearing. rewrite filter_map_swap. f_equal.
  apply filter_ext. intros line.
  destruct (existsb kanjiRegex line) eqn:E.
  - destruct (extractLine removeDuplicates line) eqn:L; [|reflexivity].
    apply extractLine_nil in L. congruence.
  - apply (extractLine_nil removeDuplicates) in E. now rewrite E.
Qed.

Lemma extractLine_CJK (removeDuplicates : bool) (line : list Z) :
  Forall inCJK (extractLine removeDuplicates line).
Proof.
  rewrite extractLine_filter. apply Forall_forall. intros c Hc.
  apply kanjiRegex_spec.
  destruct removeDuplicates; [apply (proj1 (Set_from_In _ _)) in Hc|];
    now apply filter_In in Hc.
Qed.

Lemma Forall2_map_both {A B C : Type} (R : B -> C -> Prop) (f : A -> B)
    (g : A -> C) (l : list A) :
  (forall x, In x l -> R (f x) (g x)) -> Forall2 R (map f l) (map g l).
Proof.
  induction l as [|x l IH]; intros H; simpl; constructor.
  - apply H. now left.
  - apply IH. intros y Hy. apply H. now right.
Qed.

Lemma count_occ_filter (p : Z -> bool) (l : list Z) (c : Z) :
  count_occ Z.eq_dec (List.filter p l) c =
  if p c then count_occ Z.eq_dec l c else O.
Proof.
  induction l as [|x l IH]; simpl.
  - now destruct (p c).
  - destruct (p x) eqn:Px; simpl; destruct (Z.eq_dec x c) as [->|Hne];
      rewrite IH; try reflexivity.
    + now rewrite Px.
    + now rewrite Px.
Qed.

(** C1.  Whatever the text and the deduplicate flag, every line of the
    document is non-empty and holds only code units of the two CJK blocks
    U+4E00..U+9FAF and U+3400..U+4DBF; the document has one line per input
    line that holds such a code unit, the other input lines being dropped. *)
Theorem extract_only_cjk_nonempty (text : list Z) (removeDuplicates : bool) :
  Forall (fun line => line <> [] /\ Forall inCJK line)
         (extractKanjiByLines removeDuplicates text)
  /\ extractKanjiByLines removeDuplicates text =
     map (extractLine removeDuplicates)
         (List.filter (existsb kanjiRegex) (JS.split 10 text)).
Proof.
  split; [|apply extractKanjiByLines_map].
  rewrite extractKanjiByLines_map. apply Forall_forall. intros line Hline.
  apply in_map_iff in Hline. destruct Hline as (input & <- & Hin).
  split; [|apply extractLine_CJK].
  unfold kanjiBearing in Hin. apply filter_In in Hin. destruct Hin as [_ E].
  intros Hnil. apply extractLine_nil in Hnil. congruence.
Qed.

(** C4.  With the deduplicate flag on, no line of the document holds a
    character twice; each line is the set of the characters of the matching
    line of the flag-off document, in the order of their first occurrences
    there, so that deduplication never crosses lines and one character can
    sit in several lines.  With the flag off, a line holds every kanji of
    its input line as many times as the input line does. *)
Theorem dedupe_per_line_first_wins :
  (forall text, Forall (@NoDup Z) (extractKanjiByLines true text))
  /\ (forall text,
        extractKanjiByLines true text =
        map JS.Set_from (extractKanjiByLines false text))
  /\ (forall text,
        Forall2
          (fun raw line =>
             (forall c, In c line <-> In c raw)
             /\ (forall a b, In a raw -> In b raw ->
                   ((firstIndex a line < firstIndex b line)%nat <->
                    (firstIndex a raw < firstIndex b raw)%nat)))
          (extractKanjiByLines false text) (extractKanjiByLines true text))
  /\ (exists text line1 line2 c,
        extractKanjiByLines true text = [line1; line2]
        /\ In c line1 /\ In c line2)
  /\ (forall text,
        Forall2
          (fun input line =>
             forall c, count_occ Z.eq_dec line c =
                       if kanjiRegex c then count_occ Z.eq_dec input c else O)
          (List.filter (existsb kanjiRegex) (JS.split 10 text))
          (extractKanjiByLines false text)).
Proof.
  split; [|split; [|split; [|split]]].
  - intros text. rewrite extractKanjiByLines_map. apply Forall_forall.
    intros line Hline.
    apply in_map_iff in Hline. destruct Hline as (input & <- & _).
    rewrite extractLine_filter. apply Set_from_NoDup.
  - intros text. rewrite !extractKanjiByLines_map, map_map. apply map_ext.
    intros input. now rewrite !extractLine_filter.
  - intros text. rewrite !extractKanjiByLines_map. apply Forall2_map_both.
    intros input _. rewrite !extractLine_filter. split.
    + intros c. apply Set_from_In.
    + intros a b. apply Set_from_order.
  - exists [0x6f22; 0x5b57; 10; 0x6f22; 0x5b57], [0x6f22; 0x5b57],
      [0x6f22; 0x5b57], 0x6f22.
    split; [reflexivity|]. split; now left.
  - intros text. rewrite extractKanjiByLines_map. fold (kanjiBearing text).
    rewrite <- (map_id (kanjiBearing text)) at 1. apply Forall2_map_both.
    intros input _ c. rewrite extractLine_filter. apply count_occ_filter.
Qed.

(** ** Orderer *)

(** *** The stable sort *)

Section SortFacts.

Context {A : Type}.

Lemma sort_insert_perm (compare : A -> A -> Z) (x : A) (l : list A) :
  Permutation (x :: l) (JS.sort_insert compare x l).
Proof.
  induction l as [|y l IH]; simpl; [reflexivity|].
  destruct (compare x y <=? 0); [reflexivity|].
  rewrite perm_swap. now apply perm_skip.
Qed.

Lemma sort_perm (compare : A -> A -> Z) (l : list A) :
  Permutation l (JS.sort compare l).
Proof.
  induction l as [|x l IH]; simpl; [reflexivity|].
  rewrite <- sort_insert_perm. now apply perm_skip.
Qed.

Lemma sort_insert_ext (c1 c2 : A -> A -> Z) (x : A) (l : list A) :
  (forall a b, c1 a b = c2 a b) ->
  JS.sort_insert c1 x l = JS.sort_insert c2 x l.
Proof.
  intros E. induction l as [|y l IH]; simpl; [reflexivity|].
  now rewrite E, IH.
Qed.

Lemma sort_ext (c1 c2 : A -> A -> Z) (l : list A) :
  (forall a b, c1 a b = c2 a b) -> JS.sort c1 l = JS.sort c2 l.
Proof.
  intros E. induction l as [|x l IH]; simpl; [reflexivity|].
  rewrite IH. now apply sort_insert_ext.
Qed.

Variable key : A -> Z.

Lemma sort_insert_sorted (x : A) (l : list A) :
  StronglySorted (fun a b => key a <= key b) l ->
  StronglySorted (fun a b => key a <= key b) (JS.sort_insert (fun a b => key a - key b) x l).
Proof.
  induction 1 as [|y l Hl IH Hy]; simpl.
  - constructor; constructor.
  - destruct (Z.leb_spec (key x - key y) 0) as [Hle|Hgt].
    + constructor; [now constructor|].
      constructor; [lia|].
      eapply Forall_impl; [|exact Hy]. simpl. intros; lia.
    + constructor; [exact IH|].
      apply Forall_forall. intros z Hz.
      apply (Permutation_in _ (Permutation_sym (sort_insert_perm _ _ _))) in Hz.
      destruct Hz as [<-|Hz]; [lia|].
      rewrite Forall_forall in Hy. now apply Hy.
Qed.

Lemma sort_sorted (l : list A) :
  StronglySorted (fun a b => key a <= key b) (JS.sort (fun a b => key a - key b) l).
Proof.
  induction l as [|x l IH]; simpl; [constructor|].
  now apply sort_insert_sorted.
Qed.

(** Insertion passes only elements of a smaller key: among the elements
    of any one key the new one stays in front. *)
Lemma sort_insert_stable (k : Z) (x : A) (l : list A) :
  List.filter (fun a => key a =? k) (JS.sort_insert (fun a b => key a - key b) x l) =
  List.filter (fun a => key a =? k) (x :: l).
Proof.
  induction l as [|y l IH]; simpl; [reflexivity|].
  destruct (Z.leb_spec (key x - key y) 0) as [Hle|Hgt].
  - reflexivity.
  - simpl. rewrite IH. simpl.
    destruct (Z.eqb_spec (key x) k) as [Ex|Nx];
      destruct (Z.eqb_spec (key y) k) as [Ey|Ny]; try reflexivity.
    lia.
Qed.

Lemma sort_stable (k : Z) (l : list A) :
  List.filter (fun a => key a =? k) (JS.sort (fun a b => key a - key b) l) =
  List.filter (fun a => key a =? k) l.
Proof.
  induction l as [|x l IH]; simpl; [reflexivity|].
  rewrite sort_insert_stable. simpl. now rewrite IH.
Qed.

End SortFacts.

Lemma sort_insert_map {A B : Type} (f : A -> B) (compare : B -> B -> Z)
    (x : A) (l : list A) :
  JS.sort_insert compare (f x) (map f l) =
  map f (JS.sort_insert (fun a b => compare (f a) (f b)) x l).
Proof.
  induction l as [|y l IH]; simpl; [reflexivity|].
  destruct (compare (f x) (f y) <=? 0); simpl; [reflexivity|]. now rewrite IH.
Qed.

Lemma sort_map {A B : Type} (f : A -> B) (compare : B -> B -> Z) (l : list A) :
  JS.sort compare (map f l) =
  map f (JS.sort (fun a b => compare (f a) (f b)) l).
Proof.
  induction l as [|x l IH]; simpl; [reflexivity|].
  now rewrite IH, sort_insert_map.
Qed.

(** Sorting by the comparator [key a - key b] is the stable sort by
    increasing [key]. *)
Lemma sort_ascending (key : Z -> Z) (line : list Z) :
  StableSortedBy Z.le key line (JS.sort (fun a b => key a - key b) line).
Proof.
  split; [apply sort_perm|]. split; [apply sort_sorted|].
  intros k. apply sort_stable.
Qed.

(** Sorting by the comparator [key b - key a] is the stable sort by
    decreasing [key]. *)
Lemma sort_descending (key : Z -> Z) (line : list Z) :
  StableSortedBy Z.ge key line (JS.sort (fun a b => key b - key a) line).
Proof.
  rewrite (sort_ext _ (fun a b => (fun c => - key c) a - (fun c => - key c) b))
    by (intros; lia).
  split; [apply sort_perm|]. split.
  - pose proof (sort_sorted (fun c => - key c) line) as H.
    induction H as [|a l _ IH Ha]; constructor; [exact IH|].
    eapply Forall_impl; [|exact Ha]. simpl. intros; lia.
  - intros k.
    rewrite (filter_ext _ (fun a => (fun c => - key c) a =? - k))
      by (intros a; destruct (Z.eqb_spec (key a) k);
          destruct (Z.eqb_spec (- key a) (- k)); (reflexivity || lia)).
    rewrite sort_stable. apply filter_ext. intros a.
    destruct (Z.eqb_spec (key a) k); destruct (Z.eqb_spec (- key a) (- k));
      (reflexivity || lia).
Qed.

(** *** [sortKanji] *)

Section OrdererFacts.

Variable fetch : Z -> FetchOutcome.
Variable strokePaths : string -> option Z.
Variable strokeCache : gmap Z Z.

Lemma withStrokes_kanji (kanji : Z) :
  ks_kanji (withStrokes fetch strokePaths strokeCache kanji) = kanji.
Proof. unfold withStrokes. now destruct (strokeCache !! kanji). Qed.

Lemma sortLine_unicode_asc (lineKanji : list Z) :
  sortLine fetch strokePaths "unicode-asc" strokeCache lineKanji =
  JS.sort (fun a b => a - b) lineKanji.
Proof.
  unfold sortLine. simpl. rewrite sort_map, map_map. simpl.
  apply map_id.
Qed.

Lemma sortLine_unicode_desc (lineKanji : list Z) :
  sortLine fetch strokePaths "unicode-desc" strokeCache lineKanji =
  JS.sort (fun a b => b - a) lineKanji.
Proof.
  unfold sortLine. simpl. rewrite sort_map, map_map. simpl.
  apply map_id.
Qed.

Lemma sortLine_stroke_asc (lineKanji : list Z) :
  sortLine fetch strokePaths "stroke-asc" strokeCache lineKanji =
  JS.sort (fun a b => assignedCount fetch strokePaths strokeCache a
                      - assignedCount fetch strokePaths strokeCache b)
          lineKanji.
Proof.
  unfold sortLine. simpl. rewrite sort_map, map_map.
  rewrite (map_ext _ (fun c => c)) by apply withStrokes_kanji.
  apply map_id.
Qed.

Lemma sortLine_stroke_desc (lineKanji : list Z) :
  sortLine fetch strokePaths "stroke-desc" strokeCache lineKanji =
  JS.sort (fun a b => assignedCount fetch strokePaths strokeCache b
                      - assignedCount fetch strokePaths strokeCache a)
          lineKanji.
Proof.
  unfold sortLine. simpl. rewrite sort_map, map_map.
  rewrite (map_ext _ (fun c => c)) by apply withStrokes_kanji.
  apply map_id.
Qed.

Lemma Forall2_map_r {B C : Type} (R : B -> C -> Prop) (g : B -> C)
    (l : list B) :
  (forall x, R x (g x)) -> Forall2 R l (map g l).
Proof. intros H. induction l; simpl; constructor; auto. Qed.

(** C5.  The unicode modes stable-sort every line on its own by code unit,
    increasing for [unicode-asc] and decreasing for [unicode-desc]: the
    sorted document has the same number of lines and each of its lines is
    a rearrangement of the line at the same place.  The line 木 一 人
    becomes 一 人 木 in the first mode and 木 人 一, the exact reverse, in
    the second.  With mode [none] the document (and the cache) pass through
    unchanged. *)
Theorem unicode_sort_per_line :
  (forall kanjiList,
      Forall2 (StableSortedBy Z.le (fun c => c)) kanjiList
        (fst (sortKanji fetch strokePaths "unicode-asc" strokeCache
                        kanjiList)))
  /\ (forall kanjiList,
        Forall2 (StableSortedBy Z.ge (fun c => c)) kanjiList
          (fst (sortKanji fetch strokePaths "unicode-desc" strokeCache
                          kanjiList)))
  /\ fst (sortKanji fetch strokePaths "unicode-asc" strokeCache
                    [[0x6728; 0x4e00; 0x4eba]])
     = [[0x4e00; 0x4eba; 0x6728]]
  /\ fst (sortKanji fetch strokePaths "unicode-desc" strokeCache
                    [[0x6728; 0x4e00; 0x4eba]])
     = [rev [0x4e00; 0x4eba; 0x6728]]
  /\ fst (sortKanji fetch strokePaths "unicode-asc" strokeCache
                    [[0x6728; 0x4e00; 0x4eba]; [0x6f22; 0x5b57]])
     = [[0x4e00; 0x4eba; 0x6728]; [0x5b57; 0x6f22]]
  /\ (forall kanjiList,
        sortKanji fetch strokePaths "none" strokeCache kanjiList
        = (kanjiList, strokeCache)).
Proof.
  split; [|split; [|split; [|split; [|split]]]].
  - intros kanjiList. simpl. apply Forall2_map_r. intros line.
    rewrite sortLine_unicode_asc. apply (sort_ascending (fun c => c)).
  - intros kanjiList. simpl. apply Forall2_map_r. intros line.
    rewrite sortLine_unicode_desc. apply (sort_descending (fun c => c)).
  - reflexivity.
  - reflexivity.
  - reflexivity.
  - reflexivity.
Qed.

(** *** The cache after a stroke sort *)

Lemma cacheLine_cons (prev : gmap Z Z) (x : Z) (rest : list Z) :
  cacheLine fetch strokePaths strokeCache prev (x :: rest)
  = cacheLine fetch strokePaths strokeCache
      (match strokeCache !! x with
       | Some _ => prev
       | None => <[x := getStrokeCountFromKanjiVG fetch strokePaths x]> prev
       end)
      rest.
Proof. reflexivity. Qed.

Lemma cacheLine_other (prev : gmap Z Z) (lineKanji : list Z) (kanji : Z) :
  strokeCache !! kanji <> None \/ ~ In kanji lineKanji ->
  cacheLine fetch strokePaths strokeCache prev lineKanji !! kanji
  = prev !! kanji.
Proof.
  revert prev. induction lineKanji as [|x rest IH]; intros prev H;
    [reflexivity|].
  rewrite cacheLine_cons, IH by (simpl in H; tauto).
  destruct (strokeCache !! x) eqn:Ex; [reflexivity|].
  apply lookup_insert_ne. intros ->. simpl in H. tauto.
Qed.

Lemma cacheLine_missed (prev : gmap Z Z) (lineKanji : list Z) (kanji : Z) :
  strokeCache !! kanji = None -> In kanji lineKanji ->
  cacheLine fetch strokePaths strokeCache prev lineKanji !! kanji
  = Some (getStrokeCountFromKanjiVG fetch strokePaths kanji).
Proof.
  intros Hmiss. revert prev.
  induction lineKanji as [|x rest IH]; intros prev Hin; [destruct Hin|].
  rewrite cacheLine_cons.
  destruct (in_dec Z.eq_dec kanji rest) as [Hrest|Hrest].
  - now apply IH.
  - destruct Hin as [->|Hin]; [|contradiction]. rewrite Hmiss.
    rewrite cacheLine_other by tauto. apply lookup_insert_eq.
Qed.

(** After a stroke sort the cache holds, for every character of the
    document, the count the sort used; entries it held before keep their
    value and no other entry appears. *)
Lemma sortKanji_stroke_cache (kanjiList : list (list Z)) (kanji : Z) :
  snd (sortKanji fetch strokePaths "stroke-asc" strokeCache kanjiList)
    !! kanji
  = if in_dec Z.eq_dec kanji (concat kanjiList)
    then Some (assignedCount fetch strokePaths strokeCache kanji)
    else strokeCache !! kanji.
Proof.
  simpl snd.
  assert (forall prev,
             fold_left (cacheLine fetch strokePaths strokeCache) kanjiList prev
               !! kanji
             = if in_dec Z.eq_dec kanji (concat kanjiList)
               then match strokeCache !! kanji with
                    | Some _ => prev !! kanji
                    | None =>
                        Some (getStrokeCountFromKanjiVG fetch strokePaths kanji)
                    end
               else prev !! kanji) as H.
  { induction kanjiList as [|line rest IH]; intros prev; [reflexivity|].
    simpl fold_left. rewrite IH. simpl concat.
    destruct (in_dec Z.eq_dec kanji (concat rest)) as [Hr|Hr];
      destruct (in_dec Z.eq_dec kanji (line ++ concat rest)) as [Hl|Hl];
      try (exfalso; apply Hl; apply in_or_app; tauto).
    - destruct (strokeCache !! kanji) eqn:E; [|reflexivity].
      apply cacheLine_other. left. congruence.
    - apply in_app_or in Hl. destruct Hl as [Hl|Hl]; [|contradiction].
      destruct (strokeCache !! kanji) eqn:E.
      + apply cacheLine_other. left. congruence.
      + now apply cacheLine_missed.
    - apply cacheLine_other. right. intros Hin. apply Hl, in_or_app. tauto. }
  rewrite H. destruct (in_dec Z.eq_dec kanji (concat kanjiList)); [|reflexivity].
  unfold assignedCount, withStrokes.
  now destruct (strokeCache !! kanji) eqn:E.
Qed.

(** With nothing cached, a provider that always fails leaves every line in
    its order. *)
Lemma sortLine_all_failed (lineKanji : list Z) :
  (forall kanji, fetch kanji = FetchThrows \/ fetch kanji = ResponseNotOk) ->
  (forall kanji, strokeCache !! kanji = None) ->
  sortLine fetch strokePaths "stroke-asc" strokeCache lineKanji = lineKanji.
Proof.
  intros Hfail Hempty. rewrite sortLine_stroke_asc.
  assert (forall kanji,
             assignedCount fetch strokePaths strokeCache kanji = 10) as Hten.
  { intros kanji. unfold assignedCount, withStrokes. rewrite Hempty.
    simpl. unfold getStrokeCountFromKanjiVG, fetchKanjiSVG.
    destruct (Hfail kanji) as [-> | ->]; reflexivity. }
  rewrite (sort_ext _ (fun a b => 0)) by (intros; rewrite !Hten; lia).
  induction lineKanji as [|x rest IH]; simpl; [reflexivity|].
  rewrite IH. now destruct rest.
Qed.

(** C6.  In the stroke modes every character is given an integer count:
    the cached one if the cache holds the character, otherwise the number
    of stroke paths of the illustration the provider returns, and 10 when
    the request fails, is refused, returns nothing or returns what cannot
    be read.  Every line is then stable-sorted by that count (increasing
    for [stroke-asc], decreasing for [stroke-desc]); whatever the provider
    answers, the sorted line is a rearrangement of the whole line, so no
    character is lost and every line is sorted. *)
Theorem stroke_sort_total :
  (forall kanji,
      assignedCount fetch strokePaths strokeCache kanji =
      match strokeCache !! kanji with
      | Some n => n
      | None =>
          match fetch kanji with
          | ResponseOk body =>
              if String.eqb body "" then 10
              else match strokePaths body with
                   | Some paths => paths
                   | None => 10
                   end
          | ResponseNotOk => 10
          | FetchThrows => 10
          end
      end)
  /\ (forall kanjiList,
        Forall2
          (StableSortedBy Z.le (assignedCount fetch strokePaths strokeCache))
          kanjiList
          (fst (sortKanji fetch strokePaths "stroke-asc" strokeCache
                          kanjiList)))
  /\ (forall kanjiList,
        Forall2
          (StableSortedBy Z.ge (assignedCount fetch strokePaths strokeCache))
          kanjiList
          (fst (sortKanji fetch strokePaths "stroke-desc" strokeCache
                          kanjiList))).
Proof.
  split; [|split].
  - intros kanji. unfold assignedCount, withStrokes.
    destruct (strokeCache !! kanji); [reflexivity|]. simpl.
    unfold getStrokeCountFromKanjiVG, fetchKanjiSVG.
    now destruct (fetch kanji).
  - intros kanjiList. simpl. apply Forall2_map_r. intros line.
    rewrite sortLine_stroke_asc. apply sort_ascending.
  - intros kanjiList. simpl. apply Forall2_map_r. intros line.
    rewrite sortLine_stroke_desc. apply sort_descending.
Qed.

End OrdererFacts.

(** A provider that knows 一 (one path) and 人 (two paths) but not 木, with 漢
    cached at 13 strokes: 木 takes the default 10 and stays in the line. *)
Example stroke_sort_partial_data :
  let fetch kanji :=
    if kanji =? 0x4e00 then ResponseOk "M"
    else if kanji =? 0x4eba then ResponseOk "MM"
    else ResponseNotOk in
  let strokePaths body := Some (Z.of_nat (String.length body)) in
  let strokeCache : gmap Z Z := {[ 0x6f22 := 13 ]} in
  map (assignedCount fetch strokePaths strokeCache)
      [0x6f22; 0x6728; 0x4eba; 0x4e00] = [13; 10; 2; 1]
  /\ fst (sortKanji fetch strokePaths "stroke-asc" strokeCache
                    [[0x6f22; 0x6728; 0x4eba; 0x4e00]])
     = [[0x4e00; 0x4eba; 0x6728; 0x6f22]]
  /\ fst (sortKanji fetch strokePaths "stroke-desc" strokeCache
                    [[0x4e00; 0x6728; 0x4eba; 0x6f22]])
     = [[0x6f22; 0x6728; 0x4eba; 0x4e00]].
Proof. repeat split; vm_compute; reflexivity. Qed.

(** ** Page Layout Engine *)

(** *** Row capacity *)

Lemma maxKanjiPerRow_pos (kanjiSizeMm : Q) :
  (0 < kanjiSizeMm)%Q ->
  maxKanjiPerRow kanjiSizeMm = JS.Int (Qfloor (190 / kanjiSizeMm)).
Proof.
  intros H. unfold maxKanjiPerRow, JS.floor_div.
  destruct (Qeq_bool kanjiSizeMm 0) eqn:E; [|reflexivity].
  apply Qeq_bool_iff in E. rewrite E in H. discriminate H.
Qed.


(** A cell that fits in the width budget gives a capacity of at least 1. *)
Lemma Qfloor_budget_ge1 (kanjiSizeMm : Q) :
  (0 < kanjiSizeMm)%Q -> (kanjiSizeMm <= 190)%Q ->
  1 <= Qfloor (190 / kanjiSizeMm).
Proof.
  intros Hpos Hfit. apply (Qfloor_resp_le 1).
  apply Qle_shift_div_l; [exact Hpos|]. now rewrite Qmult_1_l.
Qed.




(** *** One chunk *)

Lemma mapi_from_cells (sizeMm : Q) (showNumbers : bool) (mk : Z -> Z -> Key)
    (index : Z) (chunk : list Z) :
  Forall2 (fun kanji cell =>
             exists key, cell = KanjiDisplay key kanji sizeMm showNumbers)
          chunk
          (JS.mapi_from
             (fun kanji index =>
                KanjiDisplay (mk kanji index) kanji sizeMm showNumbers)
             index chunk).
Proof.
  revert index. induction chunk as [|kanji chunk IH]; intros index; simpl.
  - constructor.
  - constructor; [eauto | apply IH].
Qed.

Lemma kanjiPair_IsRowPair (sizeMm : Q) (lineIndex : Z) (i : JS.num)
    (globalIndex : Z) (chunk : list Z) :
  IsRowPair sizeMm chunk (kanjiPair sizeMm lineIndex i globalIndex chunk).
Proof.
  unfold IsRowPair, kanjiPair. eexists _, _, _. split; [reflexivity|].
  split; eexists; (split; [reflexivity|]); unfold JS.mapi;
    apply (mapi_from_cells sizeMm _
             (fun kanji index => KanjiKey kanji (globalIndex + index) _)).
Qed.

Lemma remaining_length (lineKanji : list Z) (z : Z) :
  0 <= z ->
  Z.of_nat (length (remaining lineKanji (JS.Int z))) =
  Z.max 0 (Z.of_nat (length lineKanji) - z).
Proof. intros H. simpl. rewrite length_skipn. lia. Qed.

(** What one turn of the loop cuts off, when the capacity is at least 1. *)
Lemma slice_step (maxPerRow : JS.num) (lineKanji : list Z) (z : Z) :
  JS.leb (JS.Int 1) maxPerRow = true ->
  0 <= z < Z.of_nat (length lineKanji) ->
  let chunk := JS.slice lineKanji (JS.Int z) (JS.add (JS.Int z) maxPerRow) in
  let rest := remaining lineKanji (JS.add (JS.Int z) maxPerRow) in
  remaining lineKanji (JS.Int z) = chunk ++ rest
  /\ chunk <> []
  /\ JS.leb (JS.Int (Z.of_nat (length chunk))) maxPerRow = true
  /\ (rest <> [] -> JS.Int (Z.of_nat (length chunk)) = maxPerRow)
  /\ nonneg (JS.add (JS.Int z) maxPerRow).
Proof.
  intros Hmax Hz. destruct maxPerRow as [m|]; simpl in Hmax.
  - apply Z.leb_le in Hmax. cbv zeta. unfold JS.slice, JS.relative_index.
    simpl JS.add. cbv zeta.
    destruct (Z.ltb_spec z 0) as [?|_]; [lia|].
    destruct (Z.ltb_spec (z + m) 0) as [?|_]; [lia|].
    rewrite (Z.min_l z) by lia.
    set (len := Z.of_nat (length lineKanji)) in *.
    set (k := Z.to_nat (Z.min (z + m) len - z)).
    assert (length (skipn (Z.to_nat z) lineKanji) = Z.to_nat (len - z)) as Hlen
        by (rewrite length_skipn; lia).
    assert (skipn k (skipn (Z.to_nat z) lineKanji)
            = skipn (Z.to_nat (z + m)) lineKanji) as Hrest.
    { rewrite skipn_skipn. destruct (Z.le_gt_cases (z + m) len) as [Hle|Hgt].
      - f_equal. lia.
      - rewrite !skipn_all2; [reflexivity | lia | lia]. }
    assert (length (firstn k (skipn (Z.to_nat z) lineKanji))
            = Z.to_nat (Z.min m (len - z))) as Hchunk
        by (rewrite length_firstn, Hlen; lia).
    simpl remaining. repeat split.
    + rewrite <- Hrest. symmetry. apply firstn_skipn.
    + intros E. rewrite E in Hchunk. simpl in Hchunk. lia.
    + simpl. apply Z.leb_le. rewrite Hchunk. lia.
    + intros Hne. f_equal. rewrite Hchunk.
      destruct (Z.le_gt_cases len (z + m)) as [Hle|Hgt]; [|lia].
      exfalso. apply Hne. apply skipn_all2. lia.
    + simpl. lia.
  - cbv zeta. unfold JS.slice, JS.relative_index. simpl JS.add. cbv zeta.
    destruct (Z.ltb_spec z 0) as [?|_]; [lia|].
    rewrite (Z.min_l z) by lia. simpl remaining. rewrite app_nil_r.
    assert (length (skipn (Z.to_nat z) lineKanji)
            = Z.to_nat (Z.of_nat (length lineKanji) - z)) as Hlen
        by (rewrite length_skipn; lia).
    repeat split.
    + symmetry. apply firstn_all2. lia.
    + intros E. rewrite firstn_all2 in E by lia. rewrite E in Hlen.
      simpl in Hlen. lia.
    + intros Hne. now contradiction Hne.
Qed.

(** *** The [for] loop over a line *)

Section LoopFacts.

Variable maxPerRow : JS.num.
Variable kanjiSizeMm : Q.

Lemma layout_eta (st : Layout) :
  st = {| rows := rows st ++ [];
          globalIndex := globalIndex st + Z.of_nat (length (@nil Z)) |}.
Proof. destruct st; simpl. now rewrite app_nil_r, Z.add_0_r. Qed.

Lemma loopTest_true (lineKanji : list Z) (i : JS.num) :
  loopTest lineKanji i = true ->
  exists z, i = JS.Int z /\ z < Z.of_nat (length lineKanji).
Proof.
  unfold loopTest. destruct i as [z|]; simpl; [|discriminate].
  intros H. apply Z.ltb_lt in H. eauto.
Qed.

Lemma loopTest_false (lineKanji : list Z) (i : JS.num) :
  nonneg i -> loopTest lineKanji i = false -> remaining lineKanji i = [].
Proof.
  unfold loopTest. destruct i as [z|]; simpl; [|reflexivity].
  intros Hz H. apply Z.ltb_ge in H. apply skipn_all2. lia.
Qed.

(** With a capacity of at least 1 the loop ends: from index [i] on, it
    appends one row pair per chunk of what remains of the line. *)
Lemma forLoop_chunks (lineIndex : Z) (lineKanji : list Z) :
  JS.leb (JS.Int 1) maxPerRow = true ->
  forall (n : nat) (i : JS.num) (st : Layout) (fuel : nat),
    nonneg i ->
    (length (remaining lineKanji i) <= n)%nat ->
    (n < fuel)%nat ->
    exists chunks pairs,
      forLoop maxPerRow kanjiSizeMm fuel lineIndex lineKanji i st =
      Some {| rows := rows st ++ pairs;
              globalIndex :=
                globalIndex st + Z.of_nat (length (concat chunks)) |}
      /\ Forall2 (IsRowPair kanjiSizeMm) chunks pairs
      /\ SplitsInto maxPerRow (remaining lineKanji i) chunks.
Proof.
  intros Hmax. induction n as [|n IH]; intros i st fuel Hi Hn Hfuel;
    (destruct fuel as [|fuel]; [lia|]); simpl forLoop;
    destruct (loopTest lineKanji i) eqn:T.
  2, 4: exists [], []; (split; [f_equal; apply layout_eta|]);
        (split; [constructor|]); rewrite (loopTest_false _ _ Hi T);
        repeat split; constructor.
  - apply loopTest_true in T. destruct T as (z & -> & Hlt). simpl in Hi.
    pose proof (remaining_length lineKanji z Hi). lia.
  - apply loopTest_true in T. destruct T as (z & -> & Hlt). simpl in Hi.
    destruct (slice_step maxPerRow lineKanji z Hmax (conj Hi Hlt))
      as (Hsplit & Hne & Hle & Hfull & Hnn).
    unfold loopBody.
    set (chunk := JS.slice lineKanji (JS.Int z)
                           (JS.add (JS.Int z) maxPerRow)) in *.
    set (rest := remaining lineKanji (JS.add (JS.Int z) maxPerRow)) in *.
    assert (length chunk <> O) as Hpos by (destruct chunk; simpl; congruence).
    assert (length rest <= n)%nat as Hrest.
    { rewrite Hsplit, length_app in Hn. lia. }
    destruct (IH (JS.add (JS.Int z) maxPerRow)
                 {| rows := rows st ++
                            [kanjiPair kanjiSizeMm lineIndex (JS.Int z)
                                       (globalIndex st) chunk];
                    globalIndex :=
                      globalIndex st + Z.of_nat (length chunk) |}
                 fuel Hnn Hrest ltac:(lia))
      as (chunks & pairs & Hrun & Hpairs & Hcat & Hall & Hlast).
    exists (chunk :: chunks),
      (kanjiPair kanjiSizeMm lineIndex (JS.Int z) (globalIndex st) chunk
         :: pairs).
    split.
    { rewrite Hrun. simpl rows. simpl globalIndex. f_equal. f_equal.
      - now rewrite <- app_assoc.
      - simpl concat. rewrite length_app. lia. }
    split; [constructor; [apply kanjiPair_IsRowPair | exact Hpairs]|].
    split; [|split].
    + simpl concat. fold rest in Hcat. now rewrite Hcat, Hsplit.
    + constructor; [split; assumption | exact Hall].
    + destruct chunks as [|c chunks']; [constructor|].
      change (removelast (chunk :: c :: chunks'))
        with (chunk :: removelast (c :: chunks')).
      constructor; [|exact Hlast]. apply Hfull. fold rest in Hcat.
      rewrite <- Hcat. inversion Hall as [|? ? [Hc _] _]; subst.
      destruct c; [congruence | discriminate].
Qed.

(** A line that fits in one row is cut into one chunk, itself. *)
Lemma SplitsInto_short (lineKanji : list Z) (chunks : list (list Z)) :
  SplitsInto maxPerRow lineKanji chunks ->
  lineKanji <> [] ->
  JS.leb (JS.Int (Z.of_nat (length lineKanji))) maxPerRow = true ->
  chunks = [lineKanji].
Proof.
  intros (Hcat & Hall & Hfull) Hne Hfit.
  destruct chunks as [|c [|c' chunks]]; simpl in Hcat.
  - congruence.
  - rewrite app_nil_r in Hcat. now subst.
  - exfalso.
    change (removelast (c :: c' :: chunks))
      with (c :: removelast (c' :: chunks)) in Hfull.
    apply Forall_inv in Hfull. rewrite <- Hfull in Hfit.
    simpl in Hfit. apply Z.leb_le in Hfit.
    apply Forall_inv_tail, Forall_inv in Hall. destruct Hall as [Hc' _].
    rewrite <- Hcat, !length_app in Hfit. destruct c'; [congruence|].
    simpl in Hfit. lia.
Qed.

(** With a capacity below 1 the loop never leaves a non-empty line: its
    index stays at or below zero. *)
Lemma forLoop_diverges (lineIndex : Z) (lineKanji : list Z) :
  lineKanji <> [] ->
  JS.leb (JS.Int 1) maxPerRow = false ->
  forall (fuel : nat) (z : Z) (st : Layout),
    z <= 0 ->
    forLoop maxPerRow kanjiSizeMm fuel lineIndex lineKanji (JS.Int z) st
    = None.
Proof.
  intros Hne Hmax. destruct maxPerRow as [m|] eqn:Em; [|discriminate].
  simpl in Hmax. apply Z.leb_gt in Hmax.
  assert (0 < Z.of_nat (length lineKanji)) as Hlen
      by (destruct lineKanji; [congruence | simpl; lia]).
  induction fuel as [|fuel IH]; intros z st Hz; simpl; [reflexivity|].
  unfold loopTest. simpl JS.ltb.
  destruct (Z.ltb_spec z (Z.of_nat (length lineKanji))) as [_|?]; [|lia].
  apply IH. lia.
Qed.

(** *** The walk over the lines *)

Lemma forEachLine_laidOut (fuel : nat) :
  JS.leb (JS.Int 1) maxPerRow = true ->
  forall (lines : list (list Z)) (lineIndex len : Z) (st : Layout),
    Forall (fun line => (length line < fuel)%nat) lines ->
    lineIndex + Z.of_nat (length lines) = len ->
    exists chunkss out g,
      forEachLine maxPerRow kanjiSizeMm fuel len lineIndex lines st =
      Some {| rows := rows st ++ out; globalIndex := g |}
      /\ Forall2 (SplitsInto maxPerRow) lines chunkss
      /\ LaidOut kanjiSizeMm chunkss out.
Proof.
  intros Hmax. induction lines as [|line rest IH];
    intros lineIndex len st Hfuel Hlen.
  - exists [], [], (globalIndex st). simpl. split.
    + f_equal. destruct st; simpl. now rewrite app_nil_r.
    + split; [constructor | reflexivity].
  - pose proof (Forall_inv Hfuel) as Hline.
    pose proof (Forall_inv_tail Hfuel) as Hrest. simpl forEachLine.
    destruct (forLoop_chunks lineIndex line Hmax (length line) (JS.Int 0) st
                             fuel (Z.le_refl 0) (Nat.le_refl _) Hline)
      as (chunks & pairs & Hrun & Hpairs & Hsplit).
    rewrite Hrun. change (remaining line (JS.Int 0)) with line in Hsplit.
    destruct rest as [|line' rest']; simpl length in Hlen.
    + destruct (Z.ltb_spec lineIndex (len - 1)) as [?|_]; [lia|].
      simpl. exists [chunks], pairs. eexists. split; [reflexivity|].
      split; [constructor; [exact Hsplit | constructor]|].
      simpl. exists pairs. split; [exact Hpairs | reflexivity].
    + destruct (Z.ltb_spec lineIndex (len - 1)) as [_|?]; [|lia].
      match goal with
      | |- context [forEachLine _ _ _ ?l ?i _ ?s] =>
          destruct (IH i l s Hrest ltac:(simpl length; lia))
            as (chunkss & out & g & Hrun' & Hall & Hlaid)
      end.
      rewrite Hrun'. simpl rows.
      inversion Hall as [|? chunks' ? chunkss' Hs' Hall']; subst.
      exists (chunks :: chunks' :: chunkss'),
        (pairs ++ Div (Some (LineBreakKey lineIndex)) "line-break" [] :: out),
        g.
      split; [f_equal; f_equal; now rewrite <- !app_assoc|].
      split; [constructor; assumption|].
      exists pairs. split; [exact Hpairs|].
      eexists _, out. split; [eexists; reflexivity|].
      split; [reflexivity | exact Hlaid].
Qed.

Lemma forEachLine_diverges (fuel : nat) :
  JS.leb (JS.Int 1) maxPerRow = false ->
  forall (lines : list (list Z)) (lineIndex len : Z) (st : Layout),
    Exists (fun line => line <> []) lines ->
    forEachLine maxPerRow kanjiSizeMm fuel len lineIndex lines st = None.
Proof.
  intros Hmax. induction lines as [|line rest IH];
    intros lineIndex len st Hex; [inversion Hex|].
  simpl.
  destruct (forLoop maxPerRow kanjiSizeMm fuel lineIndex line (JS.Int 0) st)
    as [st1|] eqn:Hrun; [|reflexivity].
  apply IH. inversion Hex as [? ? Hne|]; subst; [|assumption].
  rewrite (forLoop_diverges lineIndex line Hne Hmax) in Hrun by lia.
  discriminate.
Qed.

End LoopFacts.

(** *** The layout of a line and of a document *)

(** C2.  With a row capacity of at least 1 the loop over a line ends and
    cuts the line into consecutive chunks, one row pair each: every chunk is
    non-empty and no longer than the capacity, every chunk but the last is
    full, and the chunks put end to end are the line.  A non-empty line that
    fits in one row gives the single chunk equal to the whole line. *)
Theorem row_split_lossless (maxPerRow : JS.num) (kanjiSizeMm : Q)
    (lineIndex : Z) (lineKanji : list Z) (st : Layout) (fuel : nat) :
  JS.leb (JS.Int 1) maxPerRow = true ->
  (length lineKanji < fuel)%nat ->
  exists chunks pairs st',
    forLoop maxPerRow kanjiSizeMm fuel lineIndex lineKanji (JS.Int 0) st
    = Some st'
    /\ rows st' = rows st ++ pairs
    /\ Forall2 (IsRowPair kanjiSizeMm) chunks pairs
    /\ concat chunks = lineKanji
    /\ Forall (fun chunk =>
                 chunk <> []
                 /\ JS.leb (JS.Int (Z.of_nat (length chunk))) maxPerRow = true)
              chunks
    /\ Forall (fun chunk => JS.Int (Z.of_nat (length chunk)) = maxPerRow)
              (removelast chunks)
    /\ (lineKanji <> [] ->
        JS.leb (JS.Int (Z.of_nat (length lineKanji))) maxPerRow = true ->
        chunks = [lineKanji]).
Proof.
  intros Hmax Hfuel.
  destruct (forLoop_chunks maxPerRow kanjiSizeMm lineIndex lineKanji Hmax
              (length lineKanji) (JS.Int 0) st fuel
              (Z.le_refl 0) (Nat.le_refl _) Hfuel)
    as (chunks & pairs & Hrun & Hpairs & Hsplit).
  change (remaining lineKanji (JS.Int 0)) with lineKanji in Hsplit.
  exists chunks, pairs. eexists. split; [exact Hrun|].
  split; [reflexivity|]. split; [exact Hpairs|].
  pose proof Hsplit as (Hcat & Hall & Hfull).
  repeat (split; [assumption|]).
  intros Hne Hfit. eapply SplitsInto_short; eauto.
Qed.

(** The statement for the line 一 人 木 in rows of two. *)
Lemma row_split_lossless_witness :
  exists chunks pairs st',
    forLoop (JS.Int 2) 90 4 0 [0x4e00; 0x4eba; 0x6728] (JS.Int 0)
            {| rows := []; globalIndex := 0 |}
    = Some st'
    /\ rows st' = [] ++ pairs
    /\ Forall2 (IsRowPair 90) chunks pairs
    /\ concat chunks = [0x4e00; 0x4eba; 0x6728]
    /\ Forall (fun chunk =>
                 chunk <> []
                 /\ JS.leb (JS.Int (Z.of_nat (length chunk))) (JS.Int 2) = true)
              chunks
    /\ Forall (fun chunk => JS.Int (Z.of_nat (length chunk)) = JS.Int 2)
              (removelast chunks)
    /\ ([0x4e00; 0x4eba; 0x6728] <> [] ->
        JS.leb (JS.Int (Z.of_nat (length [0x4e00; 0x4eba; 0x6728]))) (JS.Int 2)
        = true ->
        chunks = [[0x4e00; 0x4eba; 0x6728]]).
Proof.
  apply (row_split_lossless (JS.Int 2) 90 0 [0x4e00; 0x4eba; 0x6728]
           {| rows := []; globalIndex := 0 |} 4).
  - reflexivity.
  - simpl. lia.
Defined.

Lemma IsRowPair_class (sizeMm : Q) (chunk : list Z) (e : Element) :
  IsRowPair sizeMm chunk e ->
  hasClass "kanji-pair" e = true /\ hasClass "line-break" e = false.
Proof. intros (key & a & b & -> & _). split; reflexivity. Qed.

(** A layout holds one row pair per chunk and one line-break marker less
    than there are lines. *)
Lemma LaidOut_count (sizeMm : Q) (chunkss : list (list (list Z)))
    (out : list Element) :
  LaidOut sizeMm chunkss out ->
  length (List.filter (hasClass "kanji-pair") out) = length (concat chunkss)
  /\ length (List.filter (hasClass "line-break") out)
     = Nat.pred (length chunkss).
Proof.
  revert out. induction chunkss as [|chunks rest IH]; intros out H.
  - simpl in H. subst. split; reflexivity.
  - destruct H as (pairs & Hpairs & H).
    assert (List.filter (hasClass "kanji-pair") pairs = pairs
            /\ List.filter (hasClass "line-break") pairs = []) as [Hp Hb].
    { clear H. induction Hpairs as [|c e cs es He _ [IHp IHb]];
        [split; reflexivity|].
      apply IsRowPair_class in He. destruct He as [H1 H2].
      simpl. rewrite H1, H2, IHp, IHb. split; reflexivity. }
    assert (length pairs = length chunks) as Hlen
        by (symmetry; eapply Forall2_length; exact Hpairs).
    destruct rest as [|chunks' rest'].
    + subst out. rewrite Hp, Hb. simpl. rewrite app_nil_r. auto.
    + destruct H as (br & tail & (key & ->) & -> & Hlaid).
      destruct (IH _ Hlaid) as [IH1 IH2].
      change (concat (chunks :: chunks' :: rest'))
        with (chunks ++ concat (chunks' :: rest')).
      rewrite !filter_app, Hp, Hb. simpl List.filter.
      rewrite !length_app. simpl length. rewrite IH1, IH2. simpl. lia.
Qed.

(** C3.  With a row capacity of at least 1 the layout of a document ends;
    every line is cut into chunks, every chunk gives exactly one pair of
    rows, the annotated row first and the plain row second, both showing the
    characters of the chunk in order, and exactly one line-break marker
    follows the row pairs of every line except the last one: the markers
    are one less than the lines. *)
Theorem layout_pairs_and_breaks (maxPerRow : JS.num) (kanjiSizeMm : Q)
    (kanjiLines : list (list Z)) (fuel : nat) :
  JS.leb (JS.Int 1) maxPerRow = true ->
  Forall (fun line => (length line < fuel)%nat) kanjiLines ->
  exists chunkss out,
    drillLayout maxPerRow kanjiSizeMm fuel kanjiLines = Some out
    /\ Forall2 (SplitsInto maxPerRow) kanjiLines chunkss
    /\ LaidOut kanjiSizeMm chunkss out
    /\ length (List.filter (hasClass "kanji-pair") out)
       = length (concat chunkss)
    /\ length (List.filter (hasClass "line-break") out)
       = Nat.pred (length kanjiLines).
Proof.
  intros Hmax Hfuel. unfold drillLayout.
  destruct (forEachLine_laidOut maxPerRow kanjiSizeMm fuel Hmax kanjiLines 0
              (Z.of_nat (length kanjiLines)) {| rows := []; globalIndex := 0 |}
              Hfuel (Z.add_0_l _))
    as (chunkss & out & g & Hrun & Hsplit & Hlaid).
  rewrite Hrun. exists chunkss, out. simpl.
  destruct (LaidOut_count _ _ _ Hlaid) as [Hp Hb].
  rewrite (Forall2_length Hsplit). auto.
Qed.

(** The statement for the lines 一 人 木 and 漢 in rows of two. *)
Lemma layout_pairs_and_breaks_witness :
  exists chunkss out,
    drillLayout (JS.Int 2) 90 4 [[0x4e00; 0x4eba; 0x6728]; [0x6f22]] = Some out
    /\ Forall2 (SplitsInto (JS.Int 2)) [[0x4e00; 0x4eba; 0x6728]; [0x6f22]]
               chunkss
    /\ LaidOut 90 chunkss out
    /\ length (List.filter (hasClass "kanji-pair") out)
       = length (concat chunkss)
    /\ length (List.filter (hasClass "line-break") out)
       = Nat.pred (length [[0x4e00; 0x4eba; 0x6728]; [0x6f22]]).
Proof.
  apply (layout_pairs_and_breaks (JS.Int 2) 90
           [[0x4e00; 0x4eba; 0x6728]; [0x6f22]] 4).
  - reflexivity.
  - repeat constructor.
Defined.

(** Fuel beyond the length of the longest line is enough. *)
Lemma drillLayout_terminates (maxPerRow : JS.num) (kanjiSizeMm : Q)
    (kanjiLines : list (list Z)) :
  JS.leb (JS.Int 1) maxPerRow = true ->
  exists out,
    drillLayout maxPerRow kanjiSizeMm
                (S (list_max (map (@length Z) kanjiLines))) kanjiLines
    = Some out.
Proof.
  intros Hmax. unfold drillLayout.
  destruct (forEachLine_laidOut maxPerRow kanjiSizeMm
              (S (list_max (map (@length Z) kanjiLines))) Hmax kanjiLines 0
              (Z.of_nat (length kanjiLines)) {| rows := []; globalIndex := 0 |})
    as (chunkss & out & g & Hrun & _); [|apply Z.add_0_l|].
  - apply Forall_forall. intros line Hline.
    assert (length line <= list_max (map (@length Z) kanjiLines))%nat; [|lia].
    pose proof (list_max_le (map (@length Z) kanjiLines)
                  (list_max (map (@length Z) kanjiLines))) as [H _].
    specialize (H (Nat.le_refl _)). rewrite Forall_forall in H.
    apply H. now apply in_map.
  - rewrite Hrun. now exists out.
Qed.

(** A cell that fits in the width budget is laid out, whatever the
    document. *)
Lemma createDrillLayout_fits (kanjiSizeMm : Q) (kanjiLines : list (list Z)) :
  (0 < kanjiSizeMm)%Q -> (kanjiSizeMm <= 190)%Q ->
  exists fuel out, createDrillLayout fuel kanjiSizeMm kanjiLines = Some out.
Proof.
  intros Hpos Hfit. unfold createDrillLayout.
  destruct (drillLayout_terminates (maxKanjiPerRow kanjiSizeMm) kanjiSizeMm
              kanjiLines) as (out & Hrun); [|eauto].
  rewrite maxKanjiPerRow_pos by exact Hpos. simpl. apply Z.leb_le.
  now apply Qfloor_budget_ge1.
Qed.

(** A cell size of zero gives an unbounded capacity: each line is one
    chunk. *)
Example createDrillLayout_zero :
  maxKanjiPerRow 0 = JS.Infinity
  /\ createDrillLayout 2 0 [[0x4e00; 0x4eba; 0x6728]] =
     Some [kanjiPair 0 0 (JS.Int 0) 0 [0x4e00; 0x4eba; 0x6728]].
Proof. split; reflexivity. Qed.

(** *** Termination *)


(** ** The component as a whole *)

(** C8.  The text 漢字, line feed, 漢字 with deduplication on and cell size 20
    gives two lines 漢 字 each and a row capacity of 9; what is rendered is
    the row pair of the first line (one chunk holding its two characters,
    annotated row then plain row), one line-break marker, and the row pair
    of the second line. *)
Theorem scenario_two_lines (fetch : Z -> FetchOutcome)
    (strokePaths : string -> option Z) :
  App.sortedKanjiLines (scenario fetch strokePaths)
  = [[0x6f22; 0x5b57]; [0x6f22; 0x5b57]]
  /\ maxKanjiPerRow (App.kanjiSizeMm (scenario fetch strokePaths)) = JS.Int 9
  /\ (forall n : nat,
        App.render (3 + n) (scenario fetch strokePaths) =
        Some
          [Div (Some (PairKey 0 (JS.Int 0))) "kanji-pair"
             [Div None "kanji-row"
                [KanjiDisplay (KanjiKey 0x6f22 0 true) 0x6f22 20 true;
                 KanjiDisplay (KanjiKey 0x5b57 1 true) 0x5b57 20 true];
              Div None "kanji-row"
                [KanjiDisplay (KanjiKey 0x6f22 0 false) 0x6f22 20 false;
                 KanjiDisplay (KanjiKey 0x5b57 1 false) 0x5b57 20 false]];
           Div (Some (LineBreakKey 0)) "line-break" [];
           Div (Some (PairKey 1 (JS.Int 0))) "kanji-pair"
             [Div None "kanji-row"
                [KanjiDisplay (KanjiKey 0x6f22 2 true) 0x6f22 20 true;
                 KanjiDisplay (KanjiKey 0x5b57 3 true) 0x5b57 20 true];
              Div None "kanji-row"
                [KanjiDisplay (KanjiKey 0x6f22 2 false) 0x6f22 20 false;
                 KanjiDisplay (KanjiKey 0x5b57 3 false) 0x5b57 20 false]]])
  /\ (exists pair1 br pair2,
        App.render 3 (scenario fetch strokePaths) = Some [pair1; br; pair2]
        /\ IsRowPair 20 [0x6f22; 0x5b57] pair1
        /\ IsLineBreak br
        /\ IsRowPair 20 [0x6f22; 0x5b57] pair2).
Proof.
  split; [reflexivity|]. split; [reflexivity|]. split; [reflexivity|].
  eexists _, _, _. split; [reflexivity|].
  split; [apply (kanjiPair_IsRowPair 20 0 (JS.Int 0) 0)|].
  split; [eexists; reflexivity|].
  apply (kanjiPair_IsRowPair 20 1 (JS.Int 0) 2).
Qed.

(** C9.  The size field passes its value on as it is: after 200 is entered
    the cell size is 200, outside the bounds 10 and 100 the field declares
    and above the width budget; the row capacity is then 0 and the render
    of the one-character document never ends. *)
Theorem size_field_not_clamped (fetch : Z -> FetchOutcome)
    (strokePaths : string -> option Z) :
  App.kanjiSizeMm (oversized fetch strokePaths) = 200%Q
  /\ ~ (App.sizeMin <= App.kanjiSizeMm (oversized fetch strokePaths)
        <= App.sizeMax)%Q
  /\ (190 < App.kanjiSizeMm (oversized fetch strokePaths))%Q
  /\ App.sortedKanjiLines (oversized fetch strokePaths) = [[0x6f22]]
  /\ maxKanjiPerRow (App.kanjiSizeMm (oversized fetch strokePaths)) = JS.Int 0
  /\ forall fuel, App.render fuel (oversized fetch strokePaths) = None.
Proof.
  split; [reflexivity|]. split.
  { intros [_ H]. apply H. reflexivity. }
  split; [reflexivity|]. split; [reflexivity|]. split; [reflexivity|].
  intros fuel.
  change (App.render fuel (oversized fetch strokePaths))
    with (createDrillLayout fuel 200 [[0x6f22]]).
  unfold createDrillLayout, drillLayout.
  rewrite forEachLine_diverges; [reflexivity | reflexivity |].
  constructor. discriminate.
Qed.

(** * More of the component *)

(** ** The extractor across lines *)

Lemma split_concat_filter (p : Z -> bool) (sep : Z) (text : list Z) :
  p sep = false ->
  concat (map (List.filter p) (JS.split sep text)) = List.filter p text.
Proof.
  intros Hsep. induction text as [|c rest IH]; [reflexivity|].
  simpl JS.split. destruct (Z.eqb_spec c sep) as [->|Hc].
  - simpl. now rewrite Hsep.
  - destruct (JS.split sep rest) as [|piece pieces]; simpl in *.
    + rewrite <- IH. destruct (p c); reflexivity.
    + rewrite <- IH. destruct (p c); reflexivity.
Qed.

Lemma concat_filter_nonempty {A : Type} (ls : list (list A)) :
  concat (List.filter (fun l => 0 <? Z.of_nat (length l)) ls) = concat ls.
Proof.
  induction ls as [|l ls IH]; [reflexivity|]. simpl.
  destruct l as [|x l]; simpl; [exact IH | now rewrite IH].
Qed.

Lemma kanjiRegex_line_feed : kanjiRegex 10 = false.
Proof. reflexivity. Qed.

Lemma In_concat_map_Set_from (ls : list (list Z)) (c : Z) :
  In c (concat (map JS.Set_from ls)) <-> In c (concat ls).
Proof.
  induction ls as [|l ls IH]; simpl; [tauto|].
  rewrite !in_app_iff, IH, Set_from_In. tauto.
Qed.

(** X1.  Cutting the text into lines loses and reorders nothing: the lines
    of the document without deduplication, put end to end, are the kanji of
    the whole text in their order, which is what the earlier single-line
    extractor returned; with deduplication the document still holds every
    kanji value of the text and no other. *)
Theorem extract_lines_flatten (text : list Z) :
  concat (extractKanjiByLines false text) = List.filter kanjiRegex text
  /\ concat (extractKanjiByLines false text) = extractKanji text
  /\ (forall c, In c (concat (extractKanjiByLines true text))
                <-> In c text /\ kanjiRegex c = true).
Proof.
  assert (concat (extractKanjiByLines false text) = List.filter kanjiRegex text)
    as Hflat.
  { unfold extractKanjiByLines. rewrite concat_filter_nonempty.
    rewrite (map_ext _ (List.filter kanjiRegex))
      by (intros line; apply (extractLine_filter false)).
    apply split_concat_filter, kanjiRegex_line_feed. }
  split; [exact Hflat|]. split.
  - rewrite Hflat. unfold extractKanji, JS.match_g.
    now destruct (List.filter kanjiRegex text).
  - intros c.
    assert (extractKanjiByLines true text
            = map JS.Set_from (extractKanjiByLines false text)) as ->.
    { rewrite !extractKanjiByLines_map, map_map. apply map_ext.
      intros line. now rewrite !extractLine_filter. }
    rewrite In_concat_map_Set_from, Hflat. apply filter_In.
Qed.

Lemma extractKanjiByLines_nil (removeDuplicates : bool) (text : list Z) :
  extractKanjiByLines removeDuplicates text = []
  <-> existsb kanjiRegex text = false.
Proof.
  rewrite <- filter_nil_existsb.
  rewrite <- (split_concat_filter kanjiRegex 10 text kanjiRegex_line_feed).
  rewrite extractKanjiByLines_map. unfold kanjiBearing.
  induction (JS.split 10 text) as [|line lines IH]; simpl; [tauto|].
  destruct (existsb kanjiRegex line) eqn:E; simpl.
  - split; [discriminate|]. intros H. apply app_eq_nil in H.
    destruct H as [H _]. apply filter_nil_existsb in H. congruence.
  - apply filter_nil_existsb in E. rewrite E. exact IH.
Qed.

(** X2.  The document is empty exactly when the text holds no kanji; the
    component then renders no row at all, whatever the cell size, the sort
    order and the deduplicate flag, also for the cell sizes on which a
    non-empty document is never laid out. *)
Theorem no_kanji_no_rows (fetch : Z -> FetchOutcome)
    (strokePaths : string -> option Z) (s : App.State) :
  (extractKanjiByLines (App.removeDuplicates s) (App.inputText s) = []
   <-> existsb kanjiRegex (App.inputText s) = false)
  /\ (existsb kanjiRegex (App.inputText s) = false ->
      App.sortedKanjiLines (App.processKanji fetch strokePaths s) = []
      /\ forall fuel,
           App.render fuel (App.processKanji fetch strokePaths s) = Some []).
Proof.
  split; [apply extractKanjiByLines_nil|]. intros Hnone.
  apply (extractKanjiByLines_nil (App.removeDuplicates s)) in Hnone.
  assert (App.sortedKanjiLines (App.processKanji fetch strokePaths s) = [])
    as Hlines.
  { unfold App.processKanji. rewrite Hnone. unfold sortKanji.
    destruct (String.eqb (App.sortOrder s) "none"); reflexivity. }
  split; [exact Hlines|]. intros fuel. unfold App.render.
  now rewrite Hlines.
Qed.

(** The statement for the text "abc" typed into a fresh component whose cell
    size is then set to 200. *)
Lemma no_kanji_no_rows_witness :
  App.sortedKanjiLines
    (App.processKanji (fun _ => FetchThrows) (fun _ => None)
       (App.onSizeChange 200 (App.onInputChange [97; 98; 99] App.initial)))
  = []
  /\ forall fuel,
       App.render fuel
         (App.processKanji (fun _ => FetchThrows) (fun _ => None)
            (App.onSizeChange 200
               (App.onInputChange [97; 98; 99] App.initial)))
       = Some [].
Proof.
  apply (no_kanji_no_rows (fun _ => FetchThrows) (fun _ => None)
           (App.onSizeChange 200 (App.onInputChange [97; 98; 99] App.initial))).
  reflexivity.
Defined.

(** ** The Orderer on every sort order *)

Section OrdererMore.

Variable fetch : Z -> FetchOutcome.
Variable strokePaths : string -> option Z.

Lemma sortLine_stroke (sortOrder : string) (strokeCache : gmap Z Z)
    (lineKanji : list Z) :
  String.prefix "stroke-" sortOrder = true ->
  sortLine fetch strokePaths sortOrder strokeCache lineKanji =
  JS.sort (fun a b =>
             if String.eqb sortOrder "stroke-asc"
             then assignedCount fetch strokePaths strokeCache a
                  - assignedCount fetch strokePaths strokeCache b
             else assignedCount fetch strokePaths strokeCache b
                  - assignedCount fetch strokePaths strokeCache a)
          lineKanji.
Proof.
  intros H. unfold sortLine. rewrite H. cbv zeta.
  rewrite sort_map, map_map.
  rewrite (map_ext _ (fun c => c)) by apply withStrokes_kanji.
  rewrite map_id. apply sort_ext. intros a b.
  now destruct (String.eqb sortOrder "stroke-asc").
Qed.

Lemma sortLine_unicode (sortOrder : string) (strokeCache : gmap Z Z)
    (lineKanji : list Z) :
  String.prefix "stroke-" sortOrder = false ->
  String.prefix "unicode-" sortOrder = true ->
  sortLine fetch strokePaths sortOrder strokeCache lineKanji =
  JS.sort (fun a b => if String.eqb sortOrder "unicode-asc"
                      then a - b else b - a)
          lineKanji.
Proof.
  intros H1 H2. unfold sortLine. rewrite H1, H2. cbv zeta.
  rewrite sort_map, map_map. simpl. rewrite map_id. apply sort_ext.
  intros a b. now destruct (String.eqb sortOrder "unicode-asc").
Qed.

Lemma sortLine_other (sortOrder : string) (strokeCache : gmap Z Z)
    (lineKanji : list Z) :
  String.prefix "stroke-" sortOrder = false ->
  String.prefix "unicode-" sortOrder = false ->
  sortLine fetch strokePaths sortOrder strokeCache lineKanji = lineKanji.
Proof. intros H1 H2. unfold sortLine. now rewrite H1, H2. Qed.

(** Whatever the sort order, a line keeps its characters. *)
Lemma sortLine_perm (sortOrder : string) (strokeCache : gmap Z Z)
    (lineKanji : list Z) :
  Permutation lineKanji
    (sortLine fetch strokePaths sortOrder strokeCache lineKanji).
Proof.
  destruct (String.prefix "stroke-" sortOrder) eqn:H1.
  - rewrite sortLine_stroke by exact H1. apply sort_perm.
  - destruct (String.prefix "unicode-" sortOrder) eqn:H2.
    + rewrite sortLine_unicode by assumption. apply sort_perm.
    + now rewrite sortLine_other.
Qed.

Lemma sortKanji_lines (sortOrder : string) (strokeCache : gmap Z Z)
    (kanjiList : list (list Z)) :
  Forall2 (@Permutation Z) kanjiList
    (fst (sortKanji fetch strokePaths sortOrder strokeCache kanjiList)).
Proof.
  unfold sortKanji. destruct (String.eqb sortOrder "none"); simpl.
  - induction kanjiList; constructor; auto.
  - apply Forall2_map_r. intros line. apply sortLine_perm.
Qed.

(** X3.  A sort order the component does not know (the stored value is read
    back unchecked) is not refused: one that starts with [stroke-] sorts by
    decreasing stroke count, one that starts with [unicode-] by decreasing
    code unit, and any other one leaves the document and the cache as they
    are. *)
Theorem unknown_sort_order (sortOrder : string) (strokeCache : gmap Z Z)
    (kanjiList : list (list Z)) :
  (String.prefix "stroke-" sortOrder = true ->
   sortOrder <> "stroke-asc" ->
   Forall2 (StableSortedBy Z.ge (assignedCount fetch strokePaths strokeCache))
     kanjiList
     (fst (sortKanji fetch strokePaths sortOrder strokeCache kanjiList)))
  /\ (String.prefix "unicode-" sortOrder = true ->
      sortOrder <> "unicode-asc" ->
      Forall2 (StableSortedBy Z.ge (fun c => c)) kanjiList
        (fst (sortKanji fetch strokePaths sortOrder strokeCache kanjiList)))
  /\ (String.prefix "stroke-" sortOrder = false ->
      String.prefix "unicode-" sortOrder = false ->
      sortKanji fetch strokePaths sortOrder strokeCache kanjiList
      = (kanjiList, strokeCache)).
Proof.
  split; [|split].
  - intros Hp Hne. unfold sortKanji.
    destruct (String.eqb_spec sortOrder "none") as [->|_];
      [cbv in Hp; discriminate Hp|].
    simpl. apply Forall2_map_r. intros line.
    rewrite sortLine_stroke by exact Hp.
    destruct (String.eqb_spec sortOrder "stroke-asc") as [?|_]; [contradiction|].
    apply sort_descending.
  - intros Hp Hne. unfold sortKanji.
    destruct (String.eqb_spec sortOrder "none") as [->|_];
      [cbv in Hp; discriminate Hp|].
    simpl. apply Forall2_map_r. intros line.
    assert (String.prefix "stroke-" sortOrder = false) as Hs.
    { destruct sortOrder as [|a rest]; [reflexivity|]. revert Hp.
      change (String.prefix "unicode-" (String a rest))
        with (if Ascii.ascii_dec "u" a
              then String.prefix "nicode-" rest else false).
      change (String.prefix "stroke-" (String a rest))
        with (if Ascii.ascii_dec "s" a
              then String.prefix "troke-" rest else false).
      destruct (Ascii.ascii_dec "u" a) as [<-|];
        [intros _; reflexivity | intros H; discriminate H]. }
    rewrite sortLine_unicode by assumption.
    destruct (String.eqb_spec sortOrder "unicode-asc") as [?|_];
      [contradiction|].
    apply (sort_descending (fun c => c)).
  - intros H1 H2. unfold sortKanji. rewrite H1.
    destruct (String.eqb sortOrder "none"); [reflexivity|]. f_equal.
    rewrite (map_ext _ (fun line => line))
      by (intros line; now apply sortLine_other).
    apply map_id.
Qed.

End OrdererMore.

(** Two stored values the select never offers. *)
Example unknown_sort_order_examples :
  fst (sortKanji (fun _ => FetchThrows) (fun _ => None) "unicode-up" ∅
                 [[0x4e00; 0x6728; 0x4eba]])
  = [[0x6728; 0x4eba; 0x4e00]]
  /\ fst (sortKanji (fun _ => FetchThrows) (fun _ => None) "ascending" ∅
                    [[0x6728; 0x4e00; 0x4eba]])
     = [[0x6728; 0x4e00; 0x4eba]].
Proof. split; reflexivity. Qed.

(** *** Sorting by code unit *)

Lemma sorted_perm_unique (l1 l2 : list Z) :
  StronglySorted Z.le l1 -> StronglySorted Z.le l2 -> Permutation l1 l2 ->
  l1 = l2.
Proof.
  intros H1. revert l2. induction H1 as [|a l1 Hs1 IH Ha]; intros l2 H2 Hp.
  - apply Permutation_nil in Hp. now subst.
  - destruct H2 as [|b l2 Hs2 Hb].
    + apply Permutation_sym, Permutation_nil in Hp. discriminate.
    + assert (a = b) as ->.
      { assert (In a (b :: l2)) as Hin1
            by (eapply Permutation_in; [exact Hp | now left]).
        assert (In b (a :: l1)) as Hin2
            by (eapply Permutation_in;
                [apply Permutation_sym; exact Hp | now left]).
        rewrite Forall_forall in Ha, Hb.
        destruct Hin1 as [->|Hin1]; [reflexivity|].
        destruct Hin2 as [->|Hin2]; [reflexivity|].
        apply Ha in Hin2. apply Hb in Hin1. lia. }
      f_equal. apply IH; [exact Hs2|]. eapply Permutation_cons_inv; exact Hp.
Qed.

Lemma StronglySorted_snoc (R : Z -> Z -> Prop) (l : list Z) (x : Z) :
  StronglySorted R l -> Forall (fun y => R y x) l ->
  StronglySorted R (l ++ [x]).
Proof.
  induction 1 as [|a l Hs IH Ha]; intros Hx; simpl.
  - constructor; constructor.
  - constructor.
    + apply IH. now apply Forall_inv_tail in Hx.
    + apply Forall_app. split; [exact Ha|].
      constructor; [now apply Forall_inv in Hx | constructor].
Qed.

Lemma StronglySorted_ge_rev (l : list Z) :
  StronglySorted Z.ge l -> StronglySorted Z.le (rev l).
Proof.
  induction 1 as [|a l Hs IH Ha]; simpl; [constructor|].
  apply StronglySorted_snoc; [exact IH|].
  apply Forall_forall. intros y Hy. apply in_rev in Hy.
  rewrite Forall_forall in Ha. specialize (Ha y Hy). lia.
Qed.

(** X4.  By code unit the order of the result depends on nothing but the
    characters of the line: lines with the same characters sort to the same
    line, and [unicode-desc] gives the reverse of [unicode-asc] for every
    line (with repeated characters too). *)
Theorem unicode_sort_canonical (fetch : Z -> FetchOutcome)
    (strokePaths : string -> option Z) (strokeCache : gmap Z Z) :
  (forall line1 line2,
      Permutation line1 line2 ->
      sortLine fetch strokePaths "unicode-asc" strokeCache line1
      = sortLine fetch strokePaths "unicode-asc" strokeCache line2)
  /\ (forall line,
        sortLine fetch strokePaths "unicode-desc" strokeCache line
        = rev (sortLine fetch strokePaths "unicode-asc" strokeCache line)).
Proof.
  split.
  - intros line1 line2 Hp. rewrite !sortLine_unicode_asc.
    destruct (sort_ascending (fun c => c) line1) as (P1 & S1 & _).
    destruct (sort_ascending (fun c => c) line2) as (P2 & S2 & _).
    apply sorted_perm_unique; [exact S1 | exact S2|].
    now rewrite <- P1, <- P2.
  - intros line. rewrite sortLine_unicode_asc, sortLine_unicode_desc.
    destruct (sort_ascending (fun c => c) line) as (P1 & S1 & _).
    destruct (sort_descending (fun c => c) line) as (P2 & S2 & _).
    rewrite <- (rev_involutive (JS.sort (fun a b => b - a) line)). f_equal.
    apply sorted_perm_unique.
    + now apply StronglySorted_ge_rev.
    + exact S1.
    + now rewrite <- Permutation_rev, <- P1, <- P2.
Qed.

(** By stroke count the two orders are not mirror images: characters with
    the same count keep their order of the line in both. *)
Example stroke_desc_not_reverse :
  sortLine (fun _ => FetchThrows) (fun _ => None) "stroke-asc" ∅
           [0x6728; 0x4e00]
  = [0x6728; 0x4e00]
  /\ sortLine (fun _ => FetchThrows) (fun _ => None) "stroke-desc" ∅
              [0x6728; 0x4e00]
     = [0x6728; 0x4e00].
Proof. split; reflexivity. Qed.

(** ** The stroke cache *)

Section CacheMore.

Variable fetch : Z -> FetchOutcome.
Variable strokePaths : string -> option Z.

Lemma sortKanji_snd_stroke (sortOrder : string) (strokeCache : gmap Z Z)
    (kanjiList : list (list Z)) :
  String.prefix "stroke-" sortOrder = true ->
  snd (sortKanji fetch strokePaths sortOrder strokeCache kanjiList)
  = snd (sortKanji fetch strokePaths "stroke-asc" strokeCache kanjiList).
Proof.
  intros H. unfold sortKanji. rewrite H.
  destruct (String.eqb_spec sortOrder "none") as [->|_];
    [cbv in H; discriminate H | reflexivity].
Qed.

Lemma sortKanji_snd_other (sortOrder : string) (strokeCache : gmap Z Z)
    (kanjiList : list (list Z)) :
  String.prefix "stroke-" sortOrder = false ->
  snd (sortKanji fetch strokePaths sortOrder strokeCache kanjiList)
  = strokeCache.
Proof.
  intros H. unfold sortKanji. rewrite H.
  now destruct (String.eqb sortOrder "none").
Qed.

(** The cache after [sortKanji], entry by entry. *)
Lemma sortKanji_cache_lookup (sortOrder : string) (strokeCache : gmap Z Z)
    (kanjiList : list (list Z)) (kanji : Z) :
  snd (sortKanji fetch strokePaths sortOrder strokeCache kanjiList) !! kanji
  = if String.prefix "stroke-" sortOrder
    then if in_dec Z.eq_dec kanji (concat kanjiList)
         then Some (assignedCount fetch strokePaths strokeCache kanji)
         else strokeCache !! kanji
    else strokeCache !! kanji.
Proof.
  destruct (String.prefix "stroke-" sortOrder) eqn:H.
  - rewrite sortKanji_snd_stroke by exact H. apply sortKanji_stroke_cache.
  - now rewrite sortKanji_snd_other.
Qed.

Lemma assignedCount_cached (strokeCache : gmap Z Z) (kanji n : Z) :
  strokeCache !! kanji = Some n ->
  assignedCount fetch strokePaths strokeCache kanji = n.
Proof. intros H. unfold assignedCount, withStrokes. now rewrite H. Qed.

(** X5.  The cache only grows, and only by the characters of the sorted
    document: every entry it held keeps its count, every character of a
    document sorted by strokes is in it afterwards with the count the sort
    used, and nothing else enters it; outside the stroke orders it is left
    as it was. *)
Theorem cache_grows_only (sortOrder : string) (strokeCache : gmap Z Z)
    (kanjiList : list (list Z)) :
  strokeCache
  ⊆ snd (sortKanji fetch strokePaths sortOrder strokeCache kanjiList)
  /\ (String.prefix "stroke-" sortOrder = true ->
      forall kanji,
        In kanji (concat kanjiList) ->
        snd (sortKanji fetch strokePaths sortOrder strokeCache kanjiList)
          !! kanji
        = Some (assignedCount fetch strokePaths strokeCache kanji))
  /\ (forall kanji n,
        snd (sortKanji fetch strokePaths sortOrder strokeCache kanjiList)
          !! kanji = Some n ->
        strokeCache !! kanji = Some n
        \/ (String.prefix "stroke-" sortOrder = true
            /\ In kanji (concat kanjiList)))
  /\ (String.prefix "stroke-" sortOrder = false ->
      snd (sortKanji fetch strokePaths sortOrder strokeCache kanjiList)
      = strokeCache).
Proof.
  split; [|split; [|split]].
  - apply map_subseteq_spec. intros kanji n Hn.
    rewrite sortKanji_cache_lookup.
    destruct (String.prefix "stroke-" sortOrder); [|exact Hn].
    destruct (in_dec Z.eq_dec kanji (concat kanjiList)); [|exact Hn].
    f_equal. now apply assignedCount_cached.
  - intros H kanji Hin. rewrite sortKanji_cache_lookup, H.
    now destruct (in_dec Z.eq_dec kanji (concat kanjiList)).
  - intros kanji n. rewrite sortKanji_cache_lookup.
    destruct (String.prefix "stroke-" sortOrder); [|now left].
    destruct (in_dec Z.eq_dec kanji (concat kanjiList)); [|now left].
    intros _. right. auto.
  - apply sortKanji_snd_other.
Qed.

Lemma withStrokes_cached (fetch' : Z -> FetchOutcome)
    (strokePaths' : string -> option Z) (strokeCache : gmap Z Z) (kanji : Z) :
  strokeCache !! kanji <> None ->
  withStrokes fetch strokePaths strokeCache kanji
  = withStrokes fetch' strokePaths' strokeCache kanji.
Proof.
  intros H. unfold withStrokes.
  now destruct (strokeCache !! kanji).
Qed.

Lemma sortLine_cached (fetch' : Z -> FetchOutcome)
    (strokePaths' : string -> option Z) (sortOrder : string)
    (strokeCache : gmap Z Z) (lineKanji : list Z) :
  (forall kanji, In kanji lineKanji -> strokeCache !! kanji <> None) ->
  sortLine fetch strokePaths sortOrder strokeCache lineKanji
  = sortLine fetch' strokePaths' sortOrder strokeCache lineKanji.
Proof.
  intros H. unfold sortLine.
  rewrite (map_ext_in (withStrokes fetch strokePaths strokeCache)
             (withStrokes fetch' strokePaths' strokeCache)); [reflexivity|].
  intros kanji Hin. apply withStrokes_cached. now apply H.
Qed.

Lemma cacheLine_cached (strokeCache prev : gmap Z Z) (lineKanji : list Z) :
  (forall kanji, In kanji lineKanji -> strokeCache !! kanji <> None) ->
  cacheLine fetch strokePaths strokeCache prev lineKanji = prev.
Proof.
  induction lineKanji as [|x rest IH]; intros H; [reflexivity|].
  rewrite cacheLine_cons.
  destruct (strokeCache !! x) eqn:E.
  - apply IH. intros kanji Hin. apply H. now right.
  - exfalso. apply (H x); [now left | exact E].
Qed.

Lemma fold_cacheLine_cached (strokeCache prev : gmap Z Z)
    (kanjiList : list (list Z)) :
  (forall kanji, In kanji (concat kanjiList) -> strokeCache !! kanji <> None) ->
  fold_left (cacheLine fetch strokePaths strokeCache) kanjiList prev = prev.
Proof.
  revert prev. induction kanjiList as [|line rest IH]; intros prev H;
    [reflexivity|].
  simpl. rewrite cacheLine_cached.
  - apply IH. intros kanji Hin. apply H. simpl. apply in_or_app. now right.
  - intros kanji Hin. apply H. simpl. apply in_or_app. now left.
Qed.

Lemma sortKanji_snd_cached (sortOrder : string) (strokeCache : gmap Z Z)
    (kanjiList : list (list Z)) :
  (forall kanji, In kanji (concat kanjiList) -> strokeCache !! kanji <> None) ->
  snd (sortKanji fetch strokePaths sortOrder strokeCache kanjiList)
  = strokeCache.
Proof.
  intros H. unfold sortKanji.
  destruct (String.eqb sortOrder "none"); [reflexivity|]. simpl.
  destruct (String.prefix "stroke-" sortOrder); [|reflexivity].
  now apply fold_cacheLine_cached.
Qed.

End CacheMore.

(** X6.  A document whose characters are all in the cache is sorted
    without the provider: whatever the network and the parser would answer,
    the sorted lines are the same and the cache is left as it is. *)
Theorem cached_document_needs_no_provider (fetch fetch' : Z -> FetchOutcome)
    (strokePaths strokePaths' : string -> option Z) (sortOrder : string)
    (strokeCache : gmap Z Z) (kanjiList : list (list Z)) :
  (forall kanji, In kanji (concat kanjiList) -> strokeCache !! kanji <> None) ->
  sortKanji fetch strokePaths sortOrder strokeCache kanjiList
  = sortKanji fetch' strokePaths' sortOrder strokeCache kanjiList
  /\ snd (sortKanji fetch strokePaths sortOrder strokeCache kanjiList)
     = strokeCache.
Proof.
  intros H. split; [|now apply sortKanji_snd_cached].
  apply injective_projections.
  - unfold sortKanji. destruct (String.eqb sortOrder "none"); [reflexivity|].
    simpl. apply map_ext_in. intros line Hline. apply sortLine_cached.
    intros kanji Hin. apply H. apply in_concat. eauto.
  - now rewrite !sortKanji_snd_cached.
Qed.

(** The statement for the line 漢 字 with both characters cached, a dead
    network on one side and a live one on the other. *)
Lemma cached_document_needs_no_provider_witness :
  sortKanji (fun _ => FetchThrows) (fun _ => None) "stroke-asc"
            (<[0x6f22 := 13]> (<[0x5b57 := 6]> ∅)) [[0x6f22; 0x5b57]]
  = sortKanji (fun _ => ResponseOk "M") (fun _ => Some 1) "stroke-asc"
              (<[0x6f22 := 13]> (<[0x5b57 := 6]> ∅)) [[0x6f22; 0x5b57]]
  /\ snd (sortKanji (fun _ => FetchThrows) (fun _ => None) "stroke-asc"
                    (<[0x6f22 := 13]> (<[0x5b57 := 6]> ∅)) [[0x6f22; 0x5b57]])
     = <[0x6f22 := 13]> (<[0x5b57 := 6]> ∅).
Proof.
  apply (cached_document_needs_no_provider
           (fun _ => FetchThrows) (fun _ => ResponseOk "M")
           (fun _ => None) (fun _ => Some 1) "stroke-asc"
           (<[0x6f22 := 13]> (<[0x5b57 := 6]> ∅)) [[0x6f22; 0x5b57]]).
  intros kanji [<-|[<-|[]]]; vm_compute; discriminate.
Defined.

(** ** The effect [processKanji] *)

Section EffectMore.

Variable fetch : Z -> FetchOutcome.
Variable strokePaths : string -> option Z.

Lemma withStrokes_eta (strokeCache : gmap Z Z) (kanji : Z) :
  withStrokes fetch strokePaths strokeCache kanji
  = {| ks_kanji := kanji;
       strokeCount := assignedCount fetch strokePaths strokeCache kanji |}.
Proof.
  unfold assignedCount, withStrokes. now destruct (strokeCache !! kanji).
Qed.

(** Sorting again with the cache the first sort left gives the same lines
    and writes nothing. *)
Lemma sortKanji_again (sortOrder : string) (strokeCache : gmap Z Z)
    (kanjiList : list (list Z)) :
  sortKanji fetch strokePaths sortOrder
    (snd (sortKanji fetch strokePaths sortOrder strokeCache kanjiList))
    kanjiList
  = sortKanji fetch strokePaths sortOrder strokeCache kanjiList.
Proof.
  destruct (String.prefix "stroke-" sortOrder) eqn:Hp.
  - set (cache' :=
           snd (sortKanji fetch strokePaths sortOrder strokeCache kanjiList)).
    assert (forall kanji,
               In kanji (concat kanjiList) ->
               cache' !! kanji
               = Some (assignedCount fetch strokePaths strokeCache kanji))
      as Hall.
    { intros kanji Hin. unfold cache'.
      rewrite sortKanji_cache_lookup, Hp.
      now destruct (in_dec Z.eq_dec kanji (concat kanjiList)). }
    apply injective_projections.
    + unfold sortKanji.
      destruct (String.eqb sortOrder "none"); [reflexivity|]. simpl.
      apply map_ext_in. intros line Hline. unfold sortLine. rewrite Hp.
      rewrite (map_ext_in (withStrokes fetch strokePaths cache')
                 (withStrokes fetch strokePaths strokeCache)); [reflexivity|].
      intros kanji Hin. rewrite !withStrokes_eta. f_equal.
      apply assignedCount_cached. apply Hall. apply in_concat. eauto.
    + rewrite sortKanji_snd_cached; [reflexivity|].
      intros kanji Hin. rewrite (Hall kanji Hin). discriminate.
  - rewrite sortKanji_snd_other by exact Hp. reflexivity.
Qed.

(** X7.  Running the effect again on its own result changes nothing: the
    run React starts because the cache changed finds every character
    cached, keeps the sorted lines and writes no entry, so the chain of
    re-runs ends there. *)
Theorem processKanji_idempotent (s : App.State) :
  App.processKanji fetch strokePaths (App.processKanji fetch strokePaths s)
  = App.processKanji fetch strokePaths s.
Proof.
  unfold App.processKanji at 2.
  destruct (sortKanji fetch strokePaths (App.sortOrder s) (App.strokeCache s)
              (extractKanjiByLines (App.removeDuplicates s) (App.inputText s)))
    as [sorted cache] eqn:E.
  unfold App.processKanji. simpl.
  assert (cache = snd (sortKanji fetch strokePaths (App.sortOrder s)
                         (App.strokeCache s)
                         (extractKanjiByLines (App.removeDuplicates s)
                                              (App.inputText s)))) as Hc
      by now rewrite E.
  rewrite Hc at 1. rewrite sortKanji_again, E. reflexivity.
Qed.

(** X8.  Whatever the sort order string and whatever the provider answers,
    the lines the component renders are the extracted lines, each with its
    own characters rearranged: as many lines, none empty, only kanji of the
    two CJK ranges, and without repeats when the deduplicate flag is on. *)
Theorem processKanji_lines (s : App.State) :
  Forall2 (@Permutation Z)
    (extractKanjiByLines (App.removeDuplicates s) (App.inputText s))
    (App.sortedKanjiLines (App.processKanji fetch strokePaths s))
  /\ Forall (fun line =>
               line <> [] /\ Forall inCJK line
               /\ (App.removeDuplicates s = true -> NoDup line))
            (App.sortedKanjiLines (App.processKanji fetch strokePaths s)).
Proof.
  assert (Forall2 (@Permutation Z)
            (extractKanjiByLines (App.removeDuplicates s) (App.inputText s))
            (App.sortedKanjiLines (App.processKanji fetch strokePaths s)))
    as Hperm.
  { unfold App.processKanji.
    pose proof (sortKanji_lines fetch strokePaths (App.sortOrder s)
                  (App.strokeCache s)
                  (extractKanjiByLines (App.removeDuplicates s)
                                       (App.inputText s))) as H.
    destruct (sortKanji fetch strokePaths (App.sortOrder s) (App.strokeCache s)
                (extractKanjiByLines (App.removeDuplicates s)
                                     (App.inputText s))).
    exact H. }
  split; [exact Hperm|].
  assert (Forall (fun line =>
                    line <> [] /\ Forall inCJK line
                    /\ (App.removeDuplicates s = true -> NoDup line))
                 (extractKanjiByLines (App.removeDuplicates s)
                                      (App.inputText s))) as Hraw.
  { rewrite extractKanjiByLines_map. apply Forall_forall. intros line Hline.
    apply in_map_iff in Hline. destruct Hline as (input & <- & Hin).
    split; [|split].
    - unfold kanjiBearing in Hin. apply filter_In in Hin.
      destruct Hin as [_ E]. intros Hnil. apply extractLine_nil in Hnil.
      congruence.
    - apply extractLine_CJK.
    - intros ->. rewrite extractLine_filter. apply Set_from_NoDup. }
  induction Hperm as [|raw line raws lines Hp _ IH]; [constructor|].
  apply Forall_cons_iff in Hraw. destruct Hraw as [(Hne & Hcjk & Hnd) Hraw].
  constructor; [|now apply IH].
  split; [|split].
  - intros ->. apply Permutation_sym, Permutation_nil in Hp. contradiction.
  - eapply Permutation_Forall; eauto.
  - intros Hd. eapply Permutation_NoDup; eauto.
Qed.

End EffectMore.

(** ** The sheet, element by element *)

Section SheetFacts.

Variable maxPerRow : JS.num.
Variable kanjiSizeMm : Q.

Lemma forLoop_exact (lineIndex : Z) (lineKanji : list Z) :
  JS.leb (JS.Int 1) maxPerRow = true ->
  forall (n : nat) (i : JS.num) (st : Layout) (fuel : nat),
    nonneg i ->
    (length (remaining lineKanji i) <= n)%nat ->
    (n < fuel)%nat ->
    exists chunks,
      forLoop maxPerRow kanjiSizeMm fuel lineIndex lineKanji i st =
      Some {| rows := rows st
                      ++ pairsOf maxPerRow kanjiSizeMm lineIndex i
                                 (globalIndex st) chunks;
              globalIndex :=
                globalIndex st + Z.of_nat (length (concat chunks)) |}
      /\ SplitsInto maxPerRow (remaining lineKanji i) chunks.
Proof.
  intros Hmax. induction n as [|n IH]; intros i st fuel Hi Hn Hfuel;
    (destruct fuel as [|fuel]; [lia|]); simpl forLoop;
    destruct (loopTest lineKanji i) eqn:T.
  2, 4: exists []; (split; [f_equal; apply layout_eta|]);
        rewrite (loopTest_false _ _ Hi T); repeat split; constructor.
  - apply loopTest_true in T. destruct T as (z & -> & Hlt). simpl in Hi.
    pose proof (remaining_length lineKanji z Hi). lia.
  - apply loopTest_true in T. destruct T as (z & -> & Hlt). simpl in Hi.
    destruct (slice_step maxPerRow lineKanji z Hmax (conj Hi Hlt))
      as (Hsplit & Hne & Hle & Hfull & Hnn).
    unfold loopBody.
    set (chunk := JS.slice lineKanji (JS.Int z)
                           (JS.add (JS.Int z) maxPerRow)) in *.
    set (rest := remaining lineKanji (JS.add (JS.Int z) maxPerRow)) in *.
    assert (length rest <= n)%nat as Hrest.
    { rewrite Hsplit, length_app in Hn.
      destruct chunk; [congruence | simpl in Hn; lia]. }
    destruct (IH (JS.add (JS.Int z) maxPerRow)
                 {| rows := rows st ++
                            [kanjiPair kanjiSizeMm lineIndex (JS.Int z)
                                       (globalIndex st) chunk];
                    globalIndex :=
                      globalIndex st + Z.of_nat (length chunk) |}
                 fuel Hnn Hrest ltac:(lia))
      as (chunks & Hrun & Hcat & Hall & Hlast).
    exists (chunk :: chunks). split.
    { rewrite Hrun. simpl rows. simpl globalIndex. f_equal. f_equal.
      - now rewrite <- app_assoc.
      - simpl concat. rewrite length_app. lia. }
    split; [|split].
    + simpl concat. fold rest in Hcat. now rewrite Hcat, Hsplit.
    + constructor; [split; assumption | exact Hall].
    + destruct chunks as [|c chunks']; [constructor|].
      change (removelast (chunk :: c :: chunks'))
        with (chunk :: removelast (c :: chunks')).
      constructor; [|exact Hlast]. apply Hfull. fold rest in Hcat.
      rewrite <- Hcat. apply Forall_inv in Hall. destruct Hall as [Hc _].
      destruct c; [congruence | discriminate].
Qed.

Lemma forEachLine_exact (fuel : nat) :
  JS.leb (JS.Int 1) maxPerRow = true ->
  forall (lines : list (list Z)) (lineIndex len : Z) (st : Layout),
    Forall (fun line => (length line < fuel)%nat) lines ->
    exists chunkss,
      forEachLine maxPerRow kanjiSizeMm fuel len lineIndex lines st =
      Some {| rows := rows st
                      ++ sheetOf maxPerRow kanjiSizeMm len lineIndex
                                 (globalIndex st) chunkss;
              globalIndex :=
                globalIndex st
                + Z.of_nat (length (concat (concat chunkss))) |}
      /\ Forall2 (SplitsInto maxPerRow) lines chunkss.
Proof.
  intros Hmax. induction lines as [|line rest IH];
    intros lineIndex len st Hfuel.
  - exists []. simpl. split; [|constructor].
    f_equal. destruct st; simpl. now rewrite app_nil_r, Z.add_0_r.
  - pose proof (Forall_inv Hfuel) as Hline.
    pose proof (Forall_inv_tail Hfuel) as Hrest. simpl forEachLine.
    destruct (forLoop_exact lineIndex line Hmax (length line) (JS.Int 0) st
                            fuel (Z.le_refl 0) (Nat.le_refl _) Hline)
      as (chunks & Hrun & Hsplit).
    rewrite Hrun. change (remaining line (JS.Int 0)) with line in Hsplit.
    cbv zeta. destruct (lineIndex <? len - 1) eqn:Ht;
      match goal with
      | |- context [forEachLine _ _ _ _ ?i rest ?s] =>
          destruct (IH i len s Hrest) as (chunkss & Hrun' & Hall)
      end;
      rewrite Hrun'; exists (chunks :: chunkss);
      (split; [|constructor; assumption]);
      f_equal; simpl sheetOf; rewrite Ht; simpl rows; simpl globalIndex;
      change (concat (chunks :: chunkss)) with (chunks ++ concat chunkss);
      rewrite concat_app, length_app; f_equal;
      rewrite <- ?app_assoc; try reflexivity; lia.
Qed.

(** The sheet as a function of the chunks. *)
Lemma drillLayout_exact (fuel : nat) (kanjiLines : list (list Z)) :
  JS.leb (JS.Int 1) maxPerRow = true ->
  Forall (fun line => (length line < fuel)%nat) kanjiLines ->
  exists chunkss,
    drillLayout maxPerRow kanjiSizeMm fuel kanjiLines =
    Some (sheetOf maxPerRow kanjiSizeMm (Z.of_nat (length kanjiLines)) 0 0
                  chunkss)
    /\ Forall2 (SplitsInto maxPerRow) kanjiLines chunkss.
Proof.
  intros Hmax Hfuel. unfold drillLayout.
  destruct (forEachLine_exact fuel Hmax kanjiLines 0
              (Z.of_nat (length kanjiLines))
              {| rows := []; globalIndex := 0 |} Hfuel)
    as (chunkss & Hrun & Hall).
  rewrite Hrun. simpl. eauto.
Qed.

End SheetFacts.

(** *** Cells *)

Lemma mapi_from_shift {A B : Type} (f : A -> Z -> B) (g i : Z) (l : list A) :
  JS.mapi_from (fun x n => f x (g + n)) i l = JS.mapi_from f (g + i) l.
Proof.
  revert i. induction l as [|x l IH]; intros i; simpl; [reflexivity|].
  rewrite IH. now replace (g + (i + 1)) with (g + i + 1) by lia.
Qed.

Lemma mapi_from_app {A B : Type} (f : A -> Z -> B) (g : Z) (a b : list A) :
  JS.mapi_from f g (a ++ b)
  = JS.mapi_from f g a ++ JS.mapi_from f (g + Z.of_nat (length a)) b.
Proof.
  revert g. induction a as [|x a IH]; intros g; simpl.
  - now rewrite Z.add_0_r.
  - rewrite IH. do 3 f_equal. lia.
Qed.

Lemma mapi_from_length {A B : Type} (f : A -> Z -> B) (g : Z) (l : list A) :
  length (JS.mapi_from f g l) = length l.
Proof.
  revert g. induction l as [|x l IH]; intros g; simpl; [reflexivity|].
  now rewrite IH.
Qed.

Lemma children_kanjiPair (sizeMm : Q) (lineIndex : Z) (i : JS.num) (g : Z)
    (chunk : list Z) :
  children (kanjiPair sizeMm lineIndex i g chunk)
  = [Div None "kanji-row" (JS.mapi_from (cell sizeMm true) g chunk);
     Div None "kanji-row" (JS.mapi_from (cell sizeMm false) g chunk)].
Proof.
  unfold kanjiPair, JS.mapi. simpl.
  rewrite (mapi_from_shift (fun kanji n => cell sizeMm true kanji n) g 0).
  rewrite (mapi_from_shift (fun kanji n => cell sizeMm false kanji n) g 0).
  now rewrite Z.add_0_r.
Qed.

Lemma cellsOf_app (l1 l2 : list Element) :
  cellsOf (l1 ++ l2) = cellsOf l1 ++ cellsOf l2.
Proof. unfold cellsOf, rowsOf. now rewrite !flat_map_app. Qed.

Lemma chunkCells_app (sizeMm : Q) (g : Z) (a b : list (list Z)) :
  chunkCells sizeMm g (a ++ b)
  = chunkCells sizeMm g a
    ++ chunkCells sizeMm (g + Z.of_nat (length (concat a))) b.
Proof.
  revert g. induction a as [|c a IH]; intros g.
  - simpl. now rewrite Z.add_0_r.
  - change (chunkCells sizeMm g ((c :: a) ++ b))
      with (JS.mapi_from (cell sizeMm true) g c
              ++ JS.mapi_from (cell sizeMm false) g c
              ++ chunkCells sizeMm (g + Z.of_nat (length c)) (a ++ b)).
    rewrite IH. simpl chunkCells. simpl concat.
    rewrite <- !app_assoc, length_app.
    now replace (g + Z.of_nat (length c) + Z.of_nat (length (concat a)))
      with (g + Z.of_nat (length c + length (concat a))) by lia.
Qed.

Lemma cellsOf_pairsOf (maxPerRow : JS.num) (sizeMm : Q) (lineIndex : Z)
    (i : JS.num) (g : Z) (chunks : list (list Z)) :
  cellsOf (pairsOf maxPerRow sizeMm lineIndex i g chunks)
  = chunkCells sizeMm g chunks.
Proof.
  revert i g. induction chunks as [|c chunks IH]; intros i g; [reflexivity|].
  change (pairsOf maxPerRow sizeMm lineIndex i g (c :: chunks))
    with ([kanjiPair sizeMm lineIndex i g c]
            ++ pairsOf maxPerRow sizeMm lineIndex (JS.add i maxPerRow)
                       (g + Z.of_nat (length c)) chunks).
  rewrite cellsOf_app, IH.
  change (cellsOf [kanjiPair sizeMm lineIndex i g c])
    with (flat_map children (children (kanjiPair sizeMm lineIndex i g c)
                             ++ [])).
  rewrite children_kanjiPair. simpl.
  now rewrite !app_nil_r, <- app_assoc.
Qed.

Lemma cellsOf_sheetOf (maxPerRow : JS.num) (sizeMm : Q) (len lineIndex g : Z)
    (chunkss : list (list (list Z))) :
  cellsOf (sheetOf maxPerRow sizeMm len lineIndex g chunkss)
  = chunkCells sizeMm g (concat chunkss).
Proof.
  revert lineIndex g. induction chunkss as [|chunks rest IH];
    intros lineIndex g; [reflexivity|].
  simpl sheetOf. simpl concat.
  rewrite !cellsOf_app, cellsOf_pairsOf, IH, chunkCells_app.
  destruct (lineIndex <? len - 1); reflexivity.
Qed.

Lemma filter_cells (sizeMm : Q) (b : bool) (g : Z) (l : list Z) :
  List.filter isAnnotated (JS.mapi_from (cell sizeMm b) g l)
  = (if b then JS.mapi_from (cell sizeMm b) g l else [])
  /\ List.filter isPlain (JS.mapi_from (cell sizeMm b) g l)
     = (if b then [] else JS.mapi_from (cell sizeMm b) g l).
Proof.
  revert g. induction l as [|x l IH]; intros g.
  - destruct b; split; reflexivity.
  - destruct (IH (g + 1)) as [IH1 IH2].
    destruct b; simpl; rewrite IH1, IH2; split; reflexivity.
Qed.

Lemma chunkCells_filter (sizeMm : Q) (g : Z) (chunks : list (list Z)) :
  List.filter isAnnotated (chunkCells sizeMm g chunks)
  = JS.mapi_from (cell sizeMm true) g (concat chunks)
  /\ List.filter isPlain (chunkCells sizeMm g chunks)
     = JS.mapi_from (cell sizeMm false) g (concat chunks)
  /\ length (chunkCells sizeMm g chunks)
     = (2 * length (concat chunks))%nat.
Proof.
  revert g. induction chunks as [|c chunks IH]; intros g.
  - repeat split; reflexivity.
  - destruct (IH (g + Z.of_nat (length c))) as (IH1 & IH2 & IH3).
    destruct (filter_cells sizeMm true g c) as [T1 T2].
    destruct (filter_cells sizeMm false g c) as [F1 F2].
    simpl chunkCells. simpl concat.
    rewrite !filter_app, T1, T2, F1, F2, IH1, IH2, !mapi_from_app.
    rewrite !length_app, !mapi_from_length, IH3.
    repeat split; simpl; try reflexivity. lia.
Qed.

Lemma SplitsInto_concat (maxPerRow : JS.num) (lines : list (list Z))
    (chunkss : list (list (list Z))) :
  Forall2 (SplitsInto maxPerRow) lines chunkss ->
  concat (concat chunkss) = concat lines.
Proof.
  induction 1 as [|line chunks lines chunkss (Hcat & _) _ IH];
    [reflexivity|].
  simpl. now rewrite concat_app, Hcat, IH.
Qed.

(** X9.  With a row capacity of at least 1 the cells of the sheet, read in
    the order of the page, are the characters of the document in their
    order: the annotated cells alone, and the plain cells alone, are one
    cell per character, the cell of the character at place [n] of the
    document carrying the number [n] in its key; the sheet has exactly
    twice as many cells as the document has characters. *)
Theorem sheet_cells (maxPerRow : JS.num) (kanjiSizeMm : Q)
    (kanjiLines : list (list Z)) (fuel : nat) :
  JS.leb (JS.Int 1) maxPerRow = true ->
  Forall (fun line => (length line < fuel)%nat) kanjiLines ->
  exists out,
    drillLayout maxPerRow kanjiSizeMm fuel kanjiLines = Some out
    /\ List.filter isAnnotated (cellsOf out)
       = JS.mapi (fun kanji n =>
                    KanjiDisplay (KanjiKey kanji n true) kanji kanjiSizeMm
                                 true)
                 (concat kanjiLines)
    /\ List.filter isPlain (cellsOf out)
       = JS.mapi (fun kanji n =>
                    KanjiDisplay (KanjiKey kanji n false) kanji kanjiSizeMm
                                 false)
                 (concat kanjiLines)
    /\ length (cellsOf out) = (2 * length (concat kanjiLines))%nat.
Proof.
  intros Hmax Hfuel.
  destruct (drillLayout_exact maxPerRow kanjiSizeMm fuel kanjiLines Hmax Hfuel)
    as (chunkss & Hrun & Hall).
  eexists. split; [exact Hrun|].
  rewrite cellsOf_sheetOf.
  destruct (chunkCells_filter kanjiSizeMm 0 (concat chunkss)) as (H1 & H2 & H3).
  rewrite H1, H2, H3, (SplitsInto_concat _ _ _ Hall). auto.
Qed.

(** The statement for the lines 一 人 木 and 漢 in rows of two. *)
Lemma sheet_cells_witness :
  exists out,
    drillLayout (JS.Int 2) 90 4 [[0x4e00; 0x4eba; 0x6728]; [0x6f22]] = Some out
    /\ List.filter isAnnotated (cellsOf out)
       = JS.mapi (fun kanji n =>
                    KanjiDisplay (KanjiKey kanji n true) kanji 90 true)
                 (concat [[0x4e00; 0x4eba; 0x6728]; [0x6f22]])
    /\ List.filter isPlain (cellsOf out)
       = JS.mapi (fun kanji n =>
                    KanjiDisplay (KanjiKey kanji n false) kanji 90 false)
                 (concat [[0x4e00; 0x4eba; 0x6728]; [0x6f22]])
    /\ length (cellsOf out)
       = Nat.mul 2 (length (concat [[0x4e00; 0x4eba; 0x6728]; [0x6f22]])).
Proof.
  apply (sheet_cells (JS.Int 2) 90 [[0x4e00; 0x4eba; 0x6728]; [0x6f22]] 4).
  - reflexivity.
  - repeat constructor.
Defined.

(** *** Keys *)

Lemma KeysWithin_app (m : Key -> Z) (lo mid hi : Z) (l1 l2 : list Element) :
  lo <= mid <= hi ->
  KeysWithin m lo mid l1 -> KeysWithin m mid hi l2 ->
  KeysWithin m lo hi (l1 ++ l2).
Proof.
  intros Hb [N1 F1] [N2 F2]. split.
  - rewrite map_app. apply List.NoDup_app; [exact N1 | exact N2|].
    intros k H1 H2. apply in_map_iff in H1, H2.
    destruct H1 as (e1 & E1 & I1). destruct H2 as (e2 & E2 & I2).
    rewrite Forall_forall in F1, F2.
    destruct (F1 e1 I1) as (k1 & K1 & B1).
    destruct (F2 e2 I2) as (k2 & K2 & B2).
    assert (k1 = k2) by congruence. subst. lia.
  - apply Forall_app. split.
    + eapply Forall_impl; [|exact F1]. simpl.
      intros e (key & K & B). exists key. split; [exact K | lia].
    + eapply Forall_impl; [|exact F2]. simpl.
      intros e (key & K & B). exists key. split; [exact K | lia].
Qed.

Lemma KeysWithin_nil (m : Key -> Z) (lo hi : Z) : KeysWithin m lo hi [].
Proof. split; constructor. Qed.

Lemma KeysWithin_single (m : Key -> Z) (lo hi : Z) (e : Element) (key : Key) :
  keyOf e = Some key -> lo <= m key < hi -> KeysWithin m lo hi [e].
Proof.
  intros K B. split.
  - simpl. constructor; [intros [] | constructor].
  - constructor; [eauto | constructor].
Qed.

Lemma cells_keys (sizeMm : Q) (b : bool) (g : Z) (l : list Z) :
  KeysWithin keyNumber g (g + Z.of_nat (length l))
             (JS.mapi_from (cell sizeMm b) g l)
  /\ Forall (fun e => exists kanji n, keyOf e = Some (KanjiKey kanji n b))
            (JS.mapi_from (cell sizeMm b) g l).
Proof.
  revert g. induction l as [|x l IH]; intros g.
  - split; [apply KeysWithin_nil | constructor].
  - destruct (IH (g + 1)) as [IH1 IH2]. split.
    + change (JS.mapi_from (cell sizeMm b) g (x :: l))
        with ([cell sizeMm b x g] ++ JS.mapi_from (cell sizeMm b) (g + 1) l).
      apply (KeysWithin_app keyNumber g (g + 1)).
      * simpl length. lia.
      * apply (KeysWithin_single _ _ _ _ (KanjiKey x g b));
          [reflexivity | simpl; lia].
      * replace (g + Z.of_nat (length (x :: l)))
          with (g + 1 + Z.of_nat (length l)) by (simpl length; lia).
        exact IH1.
    + simpl. constructor; [eauto | exact IH2].
Qed.

Lemma chunkCells_keys (sizeMm : Q) (g : Z) (chunks : list (list Z)) :
  KeysWithin keyNumber g (g + Z.of_nat (length (concat chunks)))
             (chunkCells sizeMm g chunks).
Proof.
  revert g. induction chunks as [|c chunks IH]; intros g.
  - apply KeysWithin_nil.
  - simpl chunkCells. simpl concat. rewrite app_assoc, length_app.
    apply (KeysWithin_app keyNumber g (g + Z.of_nat (length c))); [lia| |].
    + destruct (cells_keys sizeMm true g c) as [[N1 F1] T1].
      destruct (cells_keys sizeMm false g c) as [[N2 F2] T2].
      split; [|apply Forall_app; split; assumption].
      rewrite map_app. apply List.NoDup_app; [exact N1 | exact N2|].
      intros k H1 H2. apply in_map_iff in H1, H2.
      destruct H1 as (e1 & E1 & I1). destruct H2 as (e2 & E2 & I2).
      rewrite Forall_forall in T1, T2.
      destruct (T1 e1 I1) as (? & ? & K1).
      destruct (T2 e2 I2) as (? & ? & K2). congruence.
    + replace (g + Z.of_nat (length c + length (concat chunks)))
        with (g + Z.of_nat (length c) + Z.of_nat (length (concat chunks)))
        by lia.
      apply IH.
Qed.

Lemma pairsOf_keys (maxPerRow : JS.num) (sizeMm : Q) (lineIndex z g : Z)
    (chunks : list (list Z)) :
  JS.leb (JS.Int 1) maxPerRow = true ->
  Forall (fun chunk => JS.Int (Z.of_nat (length chunk)) = maxPerRow)
         (removelast chunks) ->
  NoDup (map keyOf (pairsOf maxPerRow sizeMm lineIndex (JS.Int z) g chunks))
  /\ Forall (fun e => exists j,
                 keyOf e = Some (PairKey lineIndex (JS.Int j)) /\ z <= j)
            (pairsOf maxPerRow sizeMm lineIndex (JS.Int z) g chunks).
Proof.
  intros Hmax Hfull. destruct maxPerRow as [m|].
  - simpl in Hmax. apply Z.leb_le in Hmax. clear Hfull.
    revert z g. induction chunks as [|c chunks IH]; intros z g.
    + split; constructor.
    + destruct (IH (z + m) (g + Z.of_nat (length c))) as [N F].
      simpl pairsOf. split.
      * simpl map. constructor; [|exact N].
        intros Hin. apply in_map_iff in Hin. destruct Hin as (e & E & I).
        rewrite Forall_forall in F. destruct (F e I) as (j & K & B).
        simpl in E. rewrite K in E. injection E as E. lia.
      * constructor; [exists z; split; [reflexivity | lia]|].
        eapply Forall_impl; [|exact F]. simpl.
        intros e (j & K & B). exists j. split; [exact K | lia].
  - destruct chunks as [|c [|c' chunks]].
    + split; constructor.
    + split.
      * simpl. constructor; [intros [] | constructor].
      * constructor; [exists z; split; [reflexivity | lia] | constructor].
    + change (removelast (c :: c' :: chunks))
        with (c :: removelast (c' :: chunks)) in Hfull.
      apply Forall_inv in Hfull. discriminate Hfull.
Qed.

Lemma sheetOf_keys (maxPerRow : JS.num) (sizeMm : Q) (len : Z)
    (chunkss : list (list (list Z))) :
  JS.leb (JS.Int 1) maxPerRow = true ->
  Forall (fun chunks =>
            Forall (fun chunk => JS.Int (Z.of_nat (length chunk)) = maxPerRow)
                   (removelast chunks))
         chunkss ->
  forall lineIndex g,
    KeysWithin keyLine lineIndex (lineIndex + Z.of_nat (length chunkss))
               (sheetOf maxPerRow sizeMm len lineIndex g chunkss).
Proof.
  intros Hmax Hall.
  induction Hall as [|chunks rest Hfull _ IH]; intros lineIndex g.
  - apply KeysWithin_nil.
  - simpl sheetOf. rewrite app_assoc.
    apply (KeysWithin_app keyLine lineIndex (lineIndex + 1));
      [simpl length; lia | |].
    + destruct (pairsOf_keys maxPerRow sizeMm lineIndex 0 g chunks Hmax Hfull)
        as [N F].
      assert (KeysWithin keyLine lineIndex (lineIndex + 1)
                (pairsOf maxPerRow sizeMm lineIndex (JS.Int 0) g chunks))
        as Hpairs.
      { split; [exact N|]. eapply Forall_impl; [|exact F]. simpl.
        intros e (j & K & _). eexists. split; [exact K | simpl; lia]. }
      destruct (lineIndex <? len - 1); [|now rewrite app_nil_r].
      split.
      * rewrite map_app. apply List.NoDup_app; [exact N | |].
        -- simpl. constructor; [intros [] | constructor].
        -- intros k H1 [<-|[]]. apply in_map_iff in H1.
           destruct H1 as (e & E & I). rewrite Forall_forall in F.
           destruct (F e I) as (j & K & _). simpl in E. congruence.
      * apply Forall_app. split; [apply Hpairs|].
        constructor; [|constructor]. eexists. split; [reflexivity|].
        simpl. lia.
    + replace (lineIndex + Z.of_nat (length (chunks :: rest)))
        with (lineIndex + 1 + Z.of_nat (length rest)) by (simpl length; lia).
      apply IH.
Qed.

Lemma SplitsInto_full (maxPerRow : JS.num) (lines : list (list Z))
    (chunkss : list (list (list Z))) :
  Forall2 (SplitsInto maxPerRow) lines chunkss ->
  Forall (fun chunks =>
            Forall (fun chunk => JS.Int (Z.of_nat (length chunk)) = maxPerRow)
                   (removelast chunks))
         chunkss.
Proof.
  induction 1 as [|l c ls cs H _ IH].
  - apply List.Forall_nil.
  - apply List.Forall_cons; [apply H | exact IH].
Qed.

(** X10.  With a row capacity of at least 1 every row pair and every marker
    of the sheet has a key and no two of them have the same, and no two
    cells of the whole sheet have the same key, even when a character
    occurs several times: the elements React tells apart by key are never
    confused. *)
Theorem sheet_keys_distinct (maxPerRow : JS.num) (kanjiSizeMm : Q)
    (kanjiLines : list (list Z)) (fuel : nat) :
  JS.leb (JS.Int 1) maxPerRow = true ->
  Forall (fun line => (length line < fuel)%nat) kanjiLines ->
  exists out,
    drillLayout maxPerRow kanjiSizeMm fuel kanjiLines = Some out
    /\ Forall (fun e => keyOf e <> None) out
    /\ NoDup (map keyOf out)
    /\ NoDup (map keyOf (cellsOf out)).
Proof.
  intros Hmax Hfuel.
  destruct (drillLayout_exact maxPerRow kanjiSizeMm fuel kanjiLines Hmax Hfuel)
    as (chunkss & Hrun & Hall).
  eexists. split; [exact Hrun|].
  assert (Forall (fun chunks =>
                    Forall (fun chunk =>
                              JS.Int (Z.of_nat (length chunk)) = maxPerRow)
                           (removelast chunks))
                 chunkss) as Hfull.
  { eapply SplitsInto_full; exact Hall. }
  destruct (sheetOf_keys maxPerRow kanjiSizeMm
              (Z.of_nat (length kanjiLines)) chunkss Hmax Hfull 0 0) as [N F].
  split; [|split; [exact N|]].
  - eapply Forall_impl; [|exact F]. simpl. intros e (key & K & _).
    congruence.
  - rewrite cellsOf_sheetOf. apply chunkCells_keys.
Qed.

(** The statement for a document in which 漢 occurs four times, in rows of
    two. *)
Lemma sheet_keys_distinct_witness :
  exists out,
    drillLayout (JS.Int 2) 90 4 [[0x6f22; 0x6f22; 0x6f22]; [0x6f22]] = Some out
    /\ Forall (fun e => keyOf e <> None) out
    /\ NoDup (map keyOf out)
    /\ NoDup (map keyOf (cellsOf out)).
Proof.
  apply (sheet_keys_distinct (JS.Int 2) 90
           [[0x6f22; 0x6f22; 0x6f22]; [0x6f22]] 4).
  - reflexivity.
  - repeat constructor.
Defined.

(** *** The width of a row *)








(** *** When the render ends *)





(** Both sides hold for the text 漢 at cell size 190, and both fail at cell
    size 191. *)
Example render_ends_iff_examples :
  App.render 2
    (App.processKanji (fun _ => FetchThrows) (fun _ => None)
       (App.onSizeChange 190 (App.onInputChange [0x6f22] App.initial)))
  = Some [kanjiPair 190 0 (JS.Int 0) 0 [0x6f22]]
  /\ forall fuel,
       App.render fuel
         (App.processKanji (fun _ => FetchThrows) (fun _ => None)
            (App.onSizeChange 191 (App.onInputChange [0x6f22] App.initial)))
       = None.
Proof.
  split; [reflexivity|]. intros fuel.
  change (createDrillLayout fuel 191 [[0x6f22]] = None).
  unfold createDrillLayout, drillLayout.
  rewrite forEachLine_diverges; [reflexivity | reflexivity |].
  constructor. discriminate.
Qed.

(** ** The illustration request *)

Lemma hexValue_pad (n : nat) (s : string) :
  hexValue (padding n "0" s) = hexValue s.
Proof.
  induction n as [|n IH]; [reflexivity|].
  rewrite <- IH. simpl padding. unfold hexValue.
  simpl HexadecimalString.NilEmpty.uint_of_string.
  now destruct (HexadecimalString.NilEmpty.uint_of_string (padding n "0" s)).
Qed.

Lemma hexValue_toString16 (n : Z) : 0 <= n -> hexValue (toString16 n) = Some n.
Proof.
  intros Hn. unfold hexValue, toString16.
  assert (HexadecimalString.NilEmpty.uint_of_string
            (HexadecimalString.NilZero.string_of_uint
               (N.to_hex_uint (Z.to_N n)))
          = Some (N.to_hex_uint (Z.to_N n))) as ->.
  { destruct (N.to_hex_uint (Z.to_N n)) eqn:E;
      try apply HexadecimalString.NilEmpty.usu.
    exfalso. destruct (Z.to_N n); [discriminate E|].
    simpl in E. revert E. apply HexadecimalPos.Unsigned.to_uint_nonnil. }
  simpl. rewrite HexadecimalN.Unsigned.of_to. f_equal. lia.
Qed.

Lemma getKanjiCode_value (kanji : Z) :
  0 <= kanji -> hexValue (getKanjiCode kanji) = Some kanji.
Proof.
  intros H. unfold getKanjiCode, padStart, charCodeAt0.
  rewrite hexValue_pad. now apply hexValue_toString16.
Qed.

Lemma zrange_In (n : nat) (start k : Z) :
  In k (zrange n start) <-> start <= k < start + Z.of_nat n.
Proof.
  revert start. induction n as [|n IH]; intros start.
  - simpl. lia.
  - simpl zrange. simpl In. rewrite IH. lia.
Qed.

Lemma getKanjiCode_length_all :
  forallb (fun k => Nat.eqb (String.length (getKanjiCode k)) 5)
          (zrange (Z.to_nat 65536) 0) = true.
Proof. vm_compute. reflexivity. Qed.

Lemma append_cancel_l (p a b : string) :
  (p ++ a)%string = (p ++ b)%string -> a = b.
Proof.
  induction p as [|c p IH]; simpl; [auto|]. intros H. injection H as H. auto.
Qed.

Lemma string_length_append (a b : string) :
  String.length (a ++ b)%string = (String.length a + String.length b)%nat.
Proof. induction a as [|c a IH]; simpl; [reflexivity | now rewrite IH]. Qed.

Lemma append_cancel_r (a b s : string) :
  (a ++ s)%string = (b ++ s)%string -> a = b.
Proof.
  intros H.
  assert (String.length a = String.length b) as Hlen.
  { apply (f_equal String.length) in H.
    rewrite !string_length_append in H. lia. }
  revert b H Hlen. induction a as [|c a IH]; intros [|c' b] H Hlen;
    simpl in Hlen; try discriminate Hlen; [reflexivity|].
  simpl in H. injection H as -> H. f_equal. apply IH; [exact H | lia].
Qed.

(** X13.  The file name asked for is the code unit of the kanji written
    with hexadecimal digits: for every code unit it has exactly five
    characters and reads back as that code unit, so that two different
    kanji are never asked for at the same address. *)
Theorem kanji_url_injective :
  (forall kanji,
      0 <= kanji < 65536 ->
      String.length (getKanjiCode kanji) = 5%nat
      /\ hexValue (getKanjiCode kanji) = Some kanji)
  /\ (forall kanji1 kanji2,
        0 <= kanji1 -> 0 <= kanji2 ->
        kanjiUrl kanji1 = kanjiUrl kanji2 -> kanji1 = kanji2)
  /\ getKanjiCode 0x6f22 = "06f22"%string.
Proof.
  split; [|split; [|reflexivity]].
  - intros kanji Hk. split; [|apply getKanjiCode_value; lia].
    pose proof getKanjiCode_length_all as H.
    rewrite forallb_forall in H. apply Nat.eqb_eq, H, zrange_In. lia.
  - intros k1 k2 H1 H2 H. unfold kanjiUrl in H.
    apply append_cancel_l, append_cancel_r in H.
    apply (f_equal hexValue) in H.
    rewrite !getKanjiCode_value in H by assumption. congruence.
Qed.

(** ** A cell *)

(** X14.  A cell that has a kanji shows the error text before its effect
    has run and the loading text while the request is under way; once the
    request has settled it shows the restyled illustration alone, or the
    error text alone when the request threw, was refused or brought nothing
    (or the restyling gave nothing), and the loading text is gone.  A cell
    without kanji requests nothing and shows only the grid. *)
Theorem cell_lifecycle (fetch : Z -> FetchOutcome)
    (processKanjiSVG : string -> bool -> string) (p : Display.Props) :
  match Display.kanji p with
  | c :: _ =>
      Display.render p Display.initial
      = (Display.sizeMm p, [Display.GridLines; Display.ErrorText])
      /\ (forall st,
            Display.render p (Display.effectStart p st)
            = (Display.sizeMm p,
               Display.GridLines :: Display.LoadingText
                 :: match Display.svgContent st with
                    | Some html =>
                        if String.eqb html "" then []
                        else [Display.KanjiSvg html]
                    | None => []
                    end))
      /\ (forall st,
            Display.render p
              (Display.effectEnd fetch processKanjiSVG p
                 (Display.effectStart p st))
            = (Display.sizeMm p,
               match fetch c with
               | ResponseOk body =>
                   if String.eqb body ""
                      || String.eqb
                           (processKanjiSVG body (Display.showNumbers p)) ""
                   then [Display.GridLines; Display.ErrorText]
                   else [Display.GridLines;
                         Display.KanjiSvg
                           (processKanjiSVG body (Display.showNumbers p))]
               | ResponseNotOk => [Display.GridLines; Display.ErrorText]
               | FetchThrows => [Display.GridLines; Display.ErrorText]
               end))
  | [] =>
      Display.effectEnd fetch processKanjiSVG p
        (Display.effectStart p Display.initial) = Display.initial
      /\ Display.render p Display.initial
         = (Display.sizeMm p, [Display.GridLines])
  end.
Proof.
  unfold Display.render, Display.effectEnd, Display.effectStart.
  destruct (Display.kanji p) as [|c rest] eqn:E.
  - split; reflexivity.
  - split; [reflexivity|]. split.
    + intros st. simpl.
      destruct (Display.svgContent st) as [html|]; [|reflexivity].
      destruct (String.eqb html ""); reflexivity.
    + intros st. unfold Display.loadEnd, fetchKanjiSVG.
      destruct (fetch c) as [body| |]; try reflexivity.
      destruct (String.eqb body "") eqn:Eb; [reflexivity|]. simpl.
      destruct (String.eqb (processKanjiSVG body (Display.showNumbers p)) "");
        reflexivity.
Qed.

(** ** The cell size at start-up *)

Lemma parseDigits_run (digits tail : list Z) :
  Forall (fun d => 0 <= d <= 9) digits ->
  match tail with
  | [] => True
  | c :: _ => isDigit c = false
  end ->
  forall acc seen,
    digits <> [] \/ seen = true ->
    parseDigits (map (fun d => 48 + d) digits ++ tail) acc seen
    = Some (fold_left (fun a d => 10 * a + d) digits acc).
Proof.
  intros Hd Htail. induction Hd as [|d digits Hd9 _ IH]; intros acc seen Hs.
  - destruct Hs as [Hs| ->]; [congruence|]. simpl.
    destruct tail as [|c tail]; [reflexivity|]. simpl. now rewrite Htail.
  - simpl.
    assert (isDigit (48 + d) = true) as ->
        by (unfold isDigit; apply andb_true_iff; split; apply Z.leb_le; lia).
    replace (48 + d - 48) with d by lia. apply IH. now right.
Qed.

Lemma parseInt10_minus (rest : list Z) :
  parseInt10 (45 :: rest) = option_map Z.opp (parseDigits rest 0 false).
Proof. reflexivity. Qed.

(** X15.  At start-up the stored cell size is taken as it reads: a missing
    or empty entry gives 20; an entry that begins with a decimal numeral
    gives the value of that numeral (up to 2^53, where numbers stop being
    exact), whatever it is (nothing holds it between 10 and 100) and
    whatever follows it, so that 12.5 reads as 12;
    a minus sign in front of a numeral that is not zero gives the opposite;
    an entry that begins with anything else than white space, a sign or a
    digit gives no number. *)
Theorem startup_size :
  initialSize None = Some 20%Q
  /\ initialSize (Some []) = Some 20%Q
  /\ (forall digits tail,
        digits <> [] ->
        Forall (fun d => 0 <= d <= 9) digits ->
        digitsValue digits <= 2 ^ 53 ->
        match tail with [] => True | c :: _ => isDigit c = false end ->
        initialSize (Some (map (fun d => 48 + d) digits ++ tail))
        = Some (inject_Z (digitsValue digits))
        /\ (0 < digitsValue digits ->
            initialSize (Some (45 :: map (fun d => 48 + d) digits ++ tail))
            = Some (inject_Z (- digitsValue digits))))
  /\ (forall c rest,
        isWhiteSpace c = false -> isDigit c = false -> c <> 45 -> c <> 43 ->
        initialSize (Some (c :: rest)) = None)
  /\ initialSize (Some [50; 48; 48]) = Some 200%Q
  /\ initialSize (Some [49; 50; 46; 53]) = Some 12%Q.
Proof.
  split; [reflexivity|]. split; [reflexivity|].
  split; [|split; [|split; reflexivity]].
  - intros digits tail Hne Hd _ Htail.
    pose proof (parseDigits_run digits tail Hd Htail 0 false (or_introl Hne))
      as Hrun.
    destruct digits as [|d digits]; [congruence|].
    pose proof (Forall_inv Hd) as Hd9. cbv beta in Hd9. split.
    + unfold initialSize. simpl app.
      unfold parseInt10. simpl skipWhiteSpace.
      assert (isWhiteSpace (48 + d) = false) as ->.
      { assert (d = 0 \/ d = 1 \/ d = 2 \/ d = 3 \/ d = 4 \/ d = 5 \/ d = 6
                \/ d = 7 \/ d = 8 \/ d = 9) as Hcases by lia.
        repeat (destruct Hcases as [->|Hcases]; [reflexivity|]).
        now subst. }
      destruct (Z.eqb_spec (48 + d) 45); [lia|].
      destruct (Z.eqb_spec (48 + d) 43); [lia|].
      simpl map in Hrun. simpl app in Hrun. now rewrite Hrun.
    + intros _. unfold initialSize. rewrite parseInt10_minus, Hrun.
      reflexivity.
  - intros c rest Hw Hdig H45 H43. unfold initialSize, parseInt10.
    simpl skipWhiteSpace. rewrite Hw.
    destruct (Z.eqb_spec c 45); [contradiction|].
    destruct (Z.eqb_spec c 43); [contradiction|].
    simpl. now rewrite Hdig.
Qed.

(** ** The number of rows *)

Lemma full_chunks_length (m : Z) (chunks : list (list Z)) :
  Forall (fun chunk => JS.Int (Z.of_nat (length chunk)) = JS.Int m) chunks ->
  Z.of_nat (length (concat chunks)) = m * Z.of_nat (length chunks).
Proof.
  induction 1 as [|c chunks Hc _ IH]; [simpl; lia|].
  injection Hc as Hc. simpl concat. rewrite length_app. simpl length. lia.
Qed.

Lemma SplitsInto_count (m : Z) (line : list Z) (chunks : list (list Z)) :
  1 <= m ->
  SplitsInto (JS.Int m) line chunks ->
  Z.of_nat (length chunks) = rowsNeeded m (Z.of_nat (length line)).
Proof.
  intros Hm (Hcat & Hall & Hfull). unfold rowsNeeded. subst line.
  destruct (list_eq_dec (list_eq_dec Z.eq_dec) chunks []) as [->|Hne].
  - simpl. symmetry. apply Z.div_small. lia.
  - pose proof (app_removelast_last [] Hne) as Hdec.
    remember (removelast chunks) as init eqn:Einit.
    remember (last chunks []) as final eqn:Efinal.
    clear Einit Efinal. subst chunks.
    apply Forall_app in Hall. destruct Hall as [_ Hlast].
    apply Forall_inv in Hlast. destruct Hlast as [Hfne Hfle].
    simpl in Hfle. apply Z.leb_le in Hfle.
    assert (0 < Z.of_nat (length final))
      by (destruct final; [congruence | simpl; lia]).
    rewrite concat_app, !length_app, !Nat2Z.inj_add.
    rewrite (full_chunks_length m init Hfull).
    simpl concat. rewrite app_nil_r. simpl length. simpl Z.of_nat.
    apply (Z.div_unique _ _ _ (Z.of_nat (length final) - 1)); lia.
Qed.

(** X16.  With a row capacity [m] of at least 1 a line of [n] characters
    takes the quotient of [n + m - 1] by [m] row pairs, so the sheet holds
    that many row pairs for each of its lines, summed over the lines. *)
Theorem sheet_row_count (m : Z) (kanjiSizeMm : Q)
    (kanjiLines : list (list Z)) (fuel : nat) :
  1 <= m ->
  Forall (fun line => (length line < fuel)%nat) kanjiLines ->
  exists out,
    drillLayout (JS.Int m) kanjiSizeMm fuel kanjiLines = Some out
    /\ Z.of_nat (length (List.filter (hasClass "kanji-pair") out))
       = fold_right Z.add 0
           (map (fun line => rowsNeeded m (Z.of_nat (length line)))
                kanjiLines).
Proof.
  intros Hm Hfuel.
  assert (JS.leb (JS.Int 1) (JS.Int m) = true) as Hmax by now apply Z.leb_le.
  unfold drillLayout.
  destruct (forEachLine_laidOut (JS.Int m) kanjiSizeMm fuel Hmax kanjiLines 0
              (Z.of_nat (length kanjiLines)) {| rows := []; globalIndex := 0 |}
              Hfuel (Z.add_0_l _))
    as (chunkss & out & g & Hrun & Hsplit & Hlaid).
  rewrite Hrun. exists out. split; [reflexivity|].
  destruct (LaidOut_count _ _ _ Hlaid) as [-> _]. clear Hrun Hlaid.
  induction Hsplit as [|line chunks lines chunkss Hs _ IH]; [reflexivity|].
  simpl. rewrite length_app, Nat2Z.inj_add, IH.
  - now rewrite (SplitsInto_count m line chunks Hm Hs).
  - now apply Forall_inv_tail in Hfuel.
Qed.

(** The statement for lines of ten, nine and one characters in rows of
    nine: two, one and one row pairs. *)
Lemma sheet_row_count_witness :
  exists out,
    drillLayout (JS.Int 9) 20 11
      [[0x4e00; 0x4e01; 0x4e02; 0x4e03; 0x4e04; 0x4e05; 0x4e06; 0x4e07;
        0x4e08; 0x4e09];
       [0x4e00; 0x4e01; 0x4e02; 0x4e03; 0x4e04; 0x4e05; 0x4e06; 0x4e07;
        0x4e08];
       [0x4e00]] = Some out
    /\ Z.of_nat (length (List.filter (hasClass "kanji-pair") out)) = 4.
Proof.
  apply (sheet_row_count 9 20
           [[0x4e00; 0x4e01; 0x4e02; 0x4e03; 0x4e04; 0x4e05; 0x4e06; 0x4e07;
             0x4e08; 0x4e09];
            [0x4e00; 0x4e01; 0x4e02; 0x4e03; 0x4e04; 0x4e05; 0x4e06; 0x4e07;
             0x4e08];
            [0x4e00]] 11).
  - lia.
  - repeat constructor.
Defined.
